(** * PDAL point-cloud filters: [filters.knnassign] and [filters.pmf]

    A shallow embedding of [KNNAssignFilter] (k-nearest-neighbour majority
    vote) and [PMFFilter] (progressive morphological ground filter), and
    the properties of the two stages that are stated about them.

    Conventions of the embedding:
    - a C++ [double] (and the [float] of the window/threshold vectors) is an
      exact rational [Q]: rounding, infinities and NaN values of fields are
      not represented; the quiet NaN that marks an empty raster cell is
      [None] in a [list (option Q)];
    - in filters.knnassign a [PointView] is the list of its points by
      [PointId]; in filters.pmf, where several views share the points of
      one table, a view is the list of the table indices of its points and
      the table is threaded through the code;
    - a [std::vector] is a [list], indexed with stdpp's lookup; an access
      outside the vector is the outcome [Undefined];
    - a loop that may not terminate takes fuel and returns [OutOfFuel]
      when it is exhausted;
    - [throwError] is the result [Error]. *)

From Stdlib Require Import QArith Qround Qminmax ZArith Lia Lqa Sorted.
From stdpp Require Import base list strings sorting.

Open Scope Q_scope.

(** ** Results of a computation *)

(** [throwError]: the stage aborts with a [pdal_error]. *)
Inductive error : Type :=
  | InvalidDomainOption (text what : string)
  | InvalidKOption (k : Z)
  | InvalidDimensionName (name : string).

Inductive result (A : Type) : Type :=
  | Ok (a : A)
  | Error (e : error).
Arguments Ok {A} a.
Arguments Error {A} e.

(** What running a piece of code yields: a value, undefined behaviour
    (an out-of-range vector access, dereferencing [end()], converting a
    non-finite or negative double to an unsigned integer) or an exhausted
    fuel (the loop has not finished yet). *)
Inductive outcome (A : Type) : Type :=
  | Done (a : A)
  | Undefined
  | OutOfFuel.
Arguments Done {A} a.
Arguments Undefined {A}.
Arguments OutOfFuel {A}.

#[global] Instance outcome_ret : MRet outcome := fun A a => Done a.

#[global] Instance outcome_bind : MBind outcome := fun A B k m =>
  match m with
  | Done a => k a
  | Undefined => Undefined
  | OutOfFuel => OutOfFuel
  end.

Definition of_option {A : Type} (o : option A) : outcome A :=
  match o with
  | Some a => Done a
  | None => Undefined
  end.

(** Monadic left fold: the body of a [for] loop run over the elements of
    [l] in order, stopping at the first outcome that is not [Done]. *)
Fixpoint ofold {A S : Type} (body : S -> A -> outcome S) (s : S) (l : list A)
  : outcome S :=
  match l with
  | [] => Done s
  | a :: l' => s' ← body s a; ofold body s' l'
  end.

(** Monadic map: one independent evaluation per element. *)
Fixpoint omap_list {A B : Type} (f : A -> outcome B) (l : list A)
  : outcome (list B) :=
  match l with
  | [] => Done []
  | a :: l' => b ← f a; bs ← omap_list f l'; Done (b :: bs)
  end.

(** ** Arithmetic on doubles *)

Definition Qltb (x y : Q) : bool := negb (Qle_bool y x).

(** [static_cast<int>(q)]: the fractional part is discarded (rounding
    towards zero). *)
Definition Qtrunc (q : Q) : Z := Z.quot (Qnum q) (Zpos (Qden q)).

(** [static_cast<size_t>(q)]: towards zero as well; undefined when the
    truncated value is negative. *)
Definition to_size_t (q : Q) : outcome Z :=
  if Qle_bool q (-1) then Undefined else Done (Qtrunc q).

(** A quotient of doubles that is converted to an integer afterwards:
    with a zero divisor the quotient is an infinity or a NaN, and the
    conversion is undefined. *)
Definition fdiv (x y : Q) : outcome Q :=
  if Qeq_bool y 0 then Undefined else Done (x / y).

(** ** Dimensions, points, layouts *)

Module Dimension.
Inductive Id : Set :=
  | Unknown | X | Y | Z | Classification | ReturnNumber | NumberOfReturns.

Definition to_nat (d : Id) : nat :=
  match d with
  | Unknown => 0 | X => 1 | Y => 2 | Z => 3
  | ReturnNumber => 4 | NumberOfReturns => 5 | Classification => 6
  end.

Definition eqb (a b : Id) : bool := Nat.eqb (to_nat a) (to_nat b).

End Dimension.

Abbreviation PointId := nat (only parsing).

(** A point: its fields as the accessors [getFieldAs<double>] and
    [setField] see them. *)
Record Point : Type := mkPoint {
  pt_X : Q;
  pt_Y : Q;
  pt_Z : Q;
  pt_Classification : Q;
  pt_ReturnNumber : Q;
  pt_NumberOfReturns : Q
}.

Definition getFieldAs (d : Dimension.Id) (p : Point) : Q :=
  match d with
  | Dimension.X => pt_X p
  | Dimension.Y => pt_Y p
  | Dimension.Z => pt_Z p
  | Dimension.Classification => pt_Classification p
  | Dimension.ReturnNumber => pt_ReturnNumber p
  | Dimension.NumberOfReturns => pt_NumberOfReturns p
  | Dimension.Unknown => 0
  end.

Definition setField (d : Dimension.Id) (v : Q) (p : Point) : Point :=
  match d with
  | Dimension.X => mkPoint v (pt_Y p) (pt_Z p) (pt_Classification p) (pt_ReturnNumber p) (pt_NumberOfReturns p)
  | Dimension.Y => mkPoint (pt_X p) v (pt_Z p) (pt_Classification p) (pt_ReturnNumber p) (pt_NumberOfReturns p)
  | Dimension.Z => mkPoint (pt_X p) (pt_Y p) v (pt_Classification p) (pt_ReturnNumber p) (pt_NumberOfReturns p)
  | Dimension.Classification => mkPoint (pt_X p) (pt_Y p) (pt_Z p) v (pt_ReturnNumber p) (pt_NumberOfReturns p)
  | Dimension.ReturnNumber => mkPoint (pt_X p) (pt_Y p) (pt_Z p) (pt_Classification p) v (pt_NumberOfReturns p)
  | Dimension.NumberOfReturns => mkPoint (pt_X p) (pt_Y p) (pt_Z p) (pt_Classification p) (pt_ReturnNumber p) v
  | Dimension.Unknown => p
  end.

(** The layout of a point table: the registered dimensions under their
    names. *)
Abbreviation PointLayout := (list (string * Dimension.Id)) (only parsing).

Fixpoint findDim (layout : PointLayout) (name : string) : Dimension.Id :=
  match layout with
  | [] => Dimension.Unknown
  | (n, d) :: layout' => if String.eqb n name then d else findDim layout' name
  end.

Definition hasDim (layout : PointLayout) (d : Dimension.Id) : bool :=
  existsb (fun nd => Dimension.eqb (snd nd) d) layout.

(** The points of a view, by [PointId] (0 .. size-1). *)
Abbreviation PointView := (list Point) (only parsing).

(** ** DimRange *)

(** Modelled from the spec: [DimRange] of private/DimRange.hpp, which is
    not among the sources: a dimension name, the identifier the name
    resolves to, and an interval predicate on the dimension's value (either
    bound may be absent, either may be inclusive, the whole may be
    negated). *)
Record DimRange : Type := mkDimRange {
  m_name : string;
  m_id : Dimension.Id;
  m_lower_bound : option Q;
  m_inclusive_lower_bound : bool;
  m_upper_bound : option Q;
  m_inclusive_upper_bound : bool;
  m_negate : bool
}.

Definition with_id (r : DimRange) (id : Dimension.Id) : DimRange :=
  mkDimRange (m_name r) id (m_lower_bound r) (m_inclusive_lower_bound r)
    (m_upper_bound r) (m_inclusive_upper_bound r) (m_negate r).

(** Modelled from the spec: [DimRange::valuePasses], the membership test of
    a value in the range. *)
Definition valuePasses (r : DimRange) (v : Q) : bool :=
  let below :=
    match m_lower_bound r with
    | None => false
    | Some lb => if m_inclusive_lower_bound r then Qltb v lb else Qle_bool v lb
    end in
  let above :=
    match m_upper_bound r with
    | None => false
    | Some ub => if m_inclusive_upper_bound r then Qltb ub v else Qle_bool ub v
    end in
  let fail := below || above in
  if m_negate r then fail else negb fail.

(** Modelled from the spec: the order [std::sort] uses on ranges (the
    [operator<] of DimRange.hpp): by resolved dimension identifier. *)
Definition range_le (r1 r2 : DimRange) : Prop :=
  (Dimension.to_nat (m_id r1) <= Dimension.to_nat (m_id r2))%nat.

#[global] Instance range_le_dec : RelDecision range_le.
Proof. intros r1 r2. unfold range_le. apply _. Defined.

Definition sort_ranges (rs : list DimRange) : list DimRange :=
  merge_sort range_le rs.

(** ** Nearest-neighbour indexes *)

(** Modelled from the spec: [KD3Index] / [KD2Index] of pdal/KDIndex.hpp,
    which is not among the sources. The index is built once over the
    coordinates of a view; a query returns the identifiers of the
    [min k n] indexed points nearest to the query position, by ascending
    Euclidean distance. The query point itself is not excluded. *)
Definition by_distance (a b : Q * PointId) : Prop := Qle_bool (fst a) (fst b) = true.

#[global] Instance by_distance_dec : RelDecision by_distance.
Proof. intros a b. unfold by_distance. apply _. Defined.

Definition nearest {A : Type} (dist : A -> Q) (pts : list A) (k : Z) : list PointId :=
  take (Z.to_nat k)
    (map snd (merge_sort by_distance (imap (fun i c => (dist c, i)) pts))).

Module KD3Index.
Record t : Type := mk { m_buf : list (Q * Q * Q) }.

Definition build (view : PointView) : t :=
  mk (map (fun p => (pt_X p, pt_Y p, pt_Z p)) view).

Definition sqdist (x y z : Q) (c : Q * Q * Q) : Q :=
  let '(cx, cy, cz) := c in
  (cx - x) * (cx - x) + (cy - y) * (cy - y) + (cz - z) * (cz - z).

Definition neighbors (kdi : t) (point : Point) (k : Z) : list PointId :=
  nearest (sqdist (pt_X point) (pt_Y point) (pt_Z point)) (m_buf kdi) k.
End KD3Index.

Module KD2Index.
Record t : Type := mk { m_buf : list (Q * Q) }.

Definition build (cells : list (Q * Q * Q)) : t :=
  mk (map (fun c => (fst (fst c), snd (fst c))) cells).

Definition sqdist (x y : Q) (c : Q * Q) : Q :=
  (fst c - x) * (fst c - x) + (snd c - y) * (snd c - y).

Definition knnSearch (kdi : t) (x y : Q) (k : Z) : list PointId :=
  nearest (sqdist x y) (m_buf kdi) k.
End KD2Index.

(** ** filters.knnassign *)

Module KNNAssignFilter.

Record t : Type := mk {
  m_domainSpec : list string;
  m_k : Z;
  m_candidateFile : string;
  m_domain : list DimRange;
  m_dim : Dimension.Id
}.

(** The constructor followed by the binding of the options of [addArgs]:
    [m_dim] is Classification, no range is parsed yet. *)
Definition create (domain : list string) (k : Z) (candidate : string) : t :=
  mk domain k candidate [] Dimension.Classification.

Definition with_domain (f : t) (dom : list DimRange) : t :=
  mk (m_domainSpec f) (m_k f) (m_candidateFile f) dom (m_dim f).

Section Stage.
(** [DimRange::parse] is not among the sources: the text of a range
    either parses or raises [DimRange::error] with a message. *)
Variable parse : string -> string + DimRange.

(** [PipelineManager] reading the candidate file into one view. *)
Variable loadSet : string -> PointView.

Fixpoint parse_domain (specs : list string) (dom : list DimRange)
  : result (list DimRange) :=
  match specs with
  | [] => Ok dom
  | r :: specs' =>
      match parse r with
      | inr range => parse_domain specs' (dom ++ [range])
      | inl what => Error (InvalidDomainOption r what)
      end
  end.

Definition initialize (f : t) : result t :=
  match parse_domain (m_domainSpec f) (m_domain f) with
  | Error e => Error e
  | Ok dom =>
      if (m_k f <? 1)%Z then Error (InvalidKOption (m_k f))
      else Ok (with_domain f dom)
  end.

Fixpoint resolve_domain (layout : PointLayout) (dom : list DimRange)
  : result (list DimRange) :=
  match dom with
  | [] => Ok []
  | r :: dom' =>
      let id := findDim layout (m_name r) in
      if Dimension.eqb id Dimension.Unknown
      then Error (InvalidDimensionName (m_name r))
      else match resolve_domain layout dom' with
           | Error e => Error e
           | Ok dom'' => Ok (with_id r id :: dom'')
           end
  end.

Definition prepared (layout : PointLayout) (f : t) : result t :=
  match resolve_domain layout (m_domain f) with
  | Error e => Error e
  | Ok dom => Ok (with_domain f (sort_ranges dom))
  end.

(** [counts[votefor]++] on a [std::map<double, unsigned int>]: the map
    is the list of its entries in ascending key order; the count is
    an unsigned 32-bit integer. *)
Definition uint_incr (c : Z) : Z := ((c + 1) mod 2 ^ 32)%Z.

Fixpoint counts_incr (votefor : Q) (counts : list (Q * Z)) : list (Q * Z) :=
  match counts with
  | [] => [(votefor, uint_incr 0)]
  | (key, c) :: rest =>
      match votefor ?= key with
      | Eq => (key, uint_incr c) :: rest
      | Lt => (votefor, uint_incr 0) :: (key, c) :: rest
      | Gt => (key, c) :: counts_incr votefor rest
      end
  end.

(** The comparison handed to [std::max_element]. Its parameters are
    [std::pair<int, int>]: each entry of the map is converted, the key
    from [double] to [int] (the converted key is not used) and the count
    from [unsigned int] to [int]; only the counts are compared. *)
Definition int_of_uint (c : Z) : Z :=
  (if c <? 2 ^ 31 then c else c - 2 ^ 32)%Z.

Definition vote_less (p1 p2 : Q * Z) : bool :=
  (int_of_uint (snd p1) <? int_of_uint (snd p2))%Z.

(** [std::max_element]: the first of the greatest elements; [end()]
    on an empty range. *)
Fixpoint max_element_from (largest : Q * Z) (l : list (Q * Z)) : Q * Z :=
  match l with
  | [] => largest
  | x :: l' =>
      if vote_less largest x then max_element_from x l'
      else max_element_from largest l'
  end.

Definition max_element (l : list (Q * Z)) : option (Q * Z) :=
  match l with
  | [] => None
  | x :: l' => Some (max_element_from x l')
  end.

(** The tally of the votes of the neighbours [iSrc], read through
    [temp]. *)
Definition vote (f : t) (temp : PointView) (iSrc : list PointId)
  : outcome (list (Q * Z)) :=
  ofold (fun counts id =>
           p ← of_option (temp !! id);
           Done (counts_incr (getFieldAs (m_dim f) p) counts))
        [] iSrc.

Definition doOneNoDomain (f : t) (point : Point) (temp : PointView)
                         (kdi : KD3Index.t) : outcome Point :=
  let iSrc := KD3Index.neighbors kdi point (m_k f) in
  let thresh := inject_Z (Z.of_nat (length iSrc)) / 2 in
  counts ← vote f temp iSrc;
  pr ← of_option (max_element counts);
  let oldclass := getFieldAs (m_dim f) point in
  let newclass := fst pr in
  if Qltb thresh (inject_Z (snd pr)) && negb (Qeq_bool oldclass newclass)
  then Done (setField (m_dim f) newclass point)
  else Done point.

(** The [for] loop of [doOne] over [m_domain], left at the first range
    that passes. *)
Fixpoint doOne_ranges (f : t) (dom : list DimRange) (point : Point)
                      (temp : PointView) (kdi : KD3Index.t) : outcome Point :=
  match dom with
  | [] => Done point
  | r :: dom' =>
      if valuePasses r (getFieldAs (m_id r) point)
      then doOneNoDomain f point temp kdi
      else doOne_ranges f dom' point temp kdi
  end.

Definition doOne (f : t) (point : Point) (temp : PointView)
                 (kdi : KD3Index.t) : outcome Point :=
  point' ← (match m_domain f with
            | [] => doOneNoDomain f point temp kdi
            | _ :: _ => Done point
            end);
  doOne_ranges f (m_domain f) point' temp kdi.

(** One turn of the loop of [filter] when the neighbours come from the
    view itself: [point_nn] reads the view as it is now. *)
Definition filter_step_src (f : t) (kdiSrc : KD3Index.t)
                           (view : PointView) (id : PointId) : outcome PointView :=
  point_src ← of_option (view !! id);
  point' ← doOne f point_src view kdiSrc;
  Done (<[id := point']> view).

(** One turn when the neighbours come from the candidate view. *)
Definition filter_step_cand (f : t) (candView : PointView) (kdiCand : KD3Index.t)
                            (view : PointView) (id : PointId) : outcome PointView :=
  point_src ← of_option (view !! id);
  point' ← doOne f point_src candView kdiCand;
  Done (<[id := point']> view).

Definition filter (f : t) (view : PointView) : outcome PointView :=
  if String.eqb (m_candidateFile f) ""
  then
    let kdiSrc := KD3Index.build view in
    ofold (filter_step_src f kdiSrc) view (seq 0 (length view))
  else
    let candView := loadSet (m_candidateFile f) in
    let kdiCand := KD3Index.build candView in
    ofold (filter_step_cand f candView kdiCand) view (seq 0 (length view)).

(** Modelled from the spec: the life of a stage (pdal/Stage.hpp, not among
    the sources): [initialize], [prepared], then [filter] on the view,
    each only when the one before raised no error. The view is returned as
    the stage leaves it. *)
Definition execute (f : t) (layout : PointLayout) (view : PointView)
  : result t * outcome PointView :=
  match initialize f with
  | Error e => (Error e, Done view)
  | Ok f1 =>
      match prepared layout f1 with
      | Error e => (Error e, Done view)
      | Ok f2 => (Ok f2, filter f2 view)
      end
  end.
End Stage.
End KNNAssignFilter.

(** ** Point tables and views over them *)

(** The storage of the points, by table index. Several views address the
    points of one table: a field written through one view is seen through
    every view that holds the point. *)
Abbreviation PointTable := (list Point) (only parsing).

(** A view handle: the table indices of the points of the view, by
    [PointId]. *)
Abbreviation PointViewPtr := (list PointId) (only parsing).

#[global] Instance Point_inhabited : Inhabited Point :=
  populate (mkPoint 0 0 0 0 0 0).

#[global] Instance Q_inhabited : Inhabited Q := populate 0.

(** [view->getFieldAs<double>(dim, i)]. *)
Definition view_getFieldAs (table : PointTable) (view : PointViewPtr)
                           (dim : Dimension.Id) (i : PointId) : Q :=
  getFieldAs dim (table !!! (view !!! i)).

(** [view->setField(dim, i, v)] for a point [i] of the view. *)
Definition view_setField (view : PointViewPtr) (dim : Dimension.Id)
                         (i : PointId) (v : Q) (table : PointTable) : PointTable :=
  match view !! i with
  | Some idx => alter (setField dim v) idx table
  | None => table
  end.

Module Segmentation.
(** Modelled from the spec: [Segmentation::ignoreDimRange] of
    pdal/Segmentation.hpp, which is not among the sources: the points
    whose value passes the range go to the ignored view, the others to
    the kept view, both in input order. Returns (kept, ignored). *)
Definition ignoreDimRange (dr : DimRange) (table : PointTable) (input : PointViewPtr)
  : PointViewPtr * PointViewPtr :=
  let passes idx := valuePasses dr (getFieldAs (m_id dr) (table !!! idx)) in
  (List.filter (fun idx => negb (passes idx)) input, List.filter passes input).

(** Modelled from the spec: [Segmentation::segmentLastReturns], not among
    the sources: the points that are last returns go to one view, the
    others to the second, both in input order. Which points count as
    last returns is the parameter [isLast]. Returns (last, other). *)
Definition segmentLastReturns (isLast : Point -> bool) (table : PointTable)
                              (input : PointViewPtr) : PointViewPtr * PointViewPtr :=
  let last idx := isLast (table !!! idx) in
  (List.filter last input, List.filter (fun idx => negb (last idx)) input).
End Segmentation.

(** The cells of a raster of [rows] x [cols], in the order of the nested
    loops [for c ... for r ...]; the cell (c, r) is at [c * rows + r]. *)
Definition cells (rows cols : nat) : list (nat * nat) :=
  c ← seq 0 cols; r ← seq 0 rows; [(c, r)].

Module eigen.
(** Whether (c', r') is within [iters] steps of (c, r) along rows and
    columns: the diamond of radius [iters]. *)
Definition in_diamond (iters : Z) (c r c' r' : nat) : bool :=
  (Z.abs (Z.of_nat c - Z.of_nat c') + Z.abs (Z.of_nat r - Z.of_nat r') <=? iters)%Z.

Definition morph (pick : Q -> Q -> Q) (data : list Q) (rows cols : nat) (iters : Z)
  : list Q :=
  '(c, r) ← cells rows cols;
  [foldl (fun acc '(c', r') =>
            if in_diamond iters c r c' r'
            then pick acc (data !!! (c' * rows + r')%nat) else acc)
         (data !!! (c * rows + r)%nat) (cells rows cols)].

(** Modelled from the spec: [eigen::erodeDiamond] of pdal/EigenUtils.hpp,
    which is not among the sources: each cell becomes the minimum over
    its diamond-shaped neighbourhood. *)
Definition erodeDiamond (data : list Q) (rows cols : nat) (iters : Z) : list Q :=
  morph Qmin data rows cols iters.

(** Modelled from the spec: [eigen::dilateDiamond]: each cell becomes the
    maximum over the same neighbourhood. *)
Definition dilateDiamond (data : list Q) (rows cols : nat) (iters : Z) : list Q :=
  morph Qmax data rows cols iters.
End eigen.

(** ** filters.pmf *)

Record BOX2D : Type := mkBOX2D { minx : Q; maxx : Q; miny : Q; maxy : Q }.

(** Modelled from the spec: [PointView::calculateBounds], not among the
    sources: the smallest box that holds the X and Y of every point of the
    view. For an empty view the box stays empty ([None]): its limits are
    the extreme doubles, and the sizes computed from them are not finite. *)
Definition grow (b : BOX2D) (p : Point) : BOX2D :=
  mkBOX2D (Qmin (minx b) (pt_X p)) (Qmax (maxx b) (pt_X p))
          (Qmin (miny b) (pt_Y p)) (Qmax (maxy b) (pt_Y p)).

Definition calculateBounds (table : PointTable) (view : PointViewPtr) : option BOX2D :=
  match view with
  | [] => None
  | idx :: view' =>
      let p := table !!! idx in
      Some (foldl (fun b idx' => grow b (table !!! idx'))
                  (mkBOX2D (pt_X p) (pt_X p) (pt_Y p) (pt_Y p)) view')
  end.

(** [v[idx]] for an index computed in integers: outside the vector the
    access is undefined (a negative index is a huge [size_t]). *)
Definition vec_at {A : Type} (v : list A) (idx : Z) : outcome A :=
  if (idx <? 0)%Z then Undefined else of_option (v !! Z.to_nat idx).

Module PMFFilter.

Record t : Type := mk {
  m_cellSize : Q;
  m_exponential : bool;
  m_ignored : DimRange;
  m_initialDistance : Q;
  m_lastOnly : bool;
  m_maxDistance : Q;
  m_maxWindowSize : Q;
  m_slope : Q
}.

(** The range a stage has before the option [ignore] is bound: no name,
    no dimension. *)
Definition no_range : DimRange :=
  mkDimRange "" Dimension.Unknown None true None true false.

(** [addArgs]: the defaults of the options. *)
Definition defaults : t :=
  mk 1 true no_range (15 # 100) true (25 # 10) 33 1.

Definition with_ignored_lastOnly (f : t) (ignored : DimRange) (lastOnly : bool) : t :=
  mk (m_cellSize f) (m_exponential f) ignored (m_initialDistance f) lastOnly
     (m_maxDistance f) (m_maxWindowSize f) (m_slope f).

Inductive log_entry : Type :=
  | Warning_no_return_dimensions.

(** [prepared]: resolves the dimension of [ignore]; without ReturnNumber
    and NumberOfReturns in the layout, [last] is switched off with a
    warning. No option value is examined. *)
Definition prepared (layout : PointLayout) (f : t) : result (t * list log_entry) :=
  let ignored := with_id (m_ignored f) (findDim layout (m_name (m_ignored f))) in
  if m_lastOnly f then
    if negb (hasDim layout Dimension.ReturnNumber)
       || negb (hasDim layout Dimension.NumberOfReturns)
    then Ok (with_ignored_lastOnly f ignored false, [Warning_no_return_dimensions])
    else Ok (with_ignored_lastOnly f ignored true, [])
  else Ok (with_ignored_lastOnly f ignored false, []).

(** [size_t cols = ((bounds.maxx - bounds.minx) / m_cellSize) + 1]. *)
Definition grid_size (f : t) (lo hi : Q) : outcome Z :=
  q ← fdiv (hi - lo) (m_cellSize f);
  to_size_t (q + 1).

(** The cell a point is binned into when the minimum surface is built:
    [c = int(floor(x - minx) / cell)], [r = int(floor(y - miny) / cell)],
    [idx = c * rows + r]. *)
Definition bin_index (f : t) (bounds : BOX2D) (rows : Z) (x y : Q) : Z :=
  let c := Qtrunc (inject_Z (Qfloor (x - minx bounds)) / m_cellSize f) in
  let r := Qtrunc (inject_Z (Qfloor (y - miny bounds)) / m_cellSize f) in
  (c * rows + r)%Z.

(** The cell whose opened elevation a point is compared with:
    [c = int(floor((x - minx) / cell))], [r = int(floor((y - miny) / cell))],
    [c * rows + r]. *)
Definition filter_index (f : t) (bounds : BOX2D) (rows : Z) (x y : Q) : Z :=
  let c := Qfloor ((x - minx bounds) / m_cellSize f) in
  let r := Qfloor ((y - miny bounds) / m_cellSize f) in
  (c * rows + r)%Z.

(** The loop that keeps the minimum Z of every populated cell. *)
Definition bin_point (f : t) (table : PointTable) (bounds : BOX2D) (rows : Z)
                     (ZImin : list (option Q)) (idx_p : PointId)
  : outcome (list (option Q)) :=
  let p := table !!! idx_p in
  let z := pt_Z p in
  let idx := bin_index f bounds rows (pt_X p) (pt_Y p) in
  cell ← vec_at ZImin idx;
  if match cell with
     | Some z0 => Qltb z z0
     | None => true
     end
  then Done (<[Z.to_nat idx := Some z]> ZImin)
  else Done ZImin.

Definition cell_x (f : t) (bounds : BOX2D) (c : nat) : Q :=
  minx bounds + (inject_Z (Z.of_nat c) + (1 # 2)) * m_cellSize f.

Definition cell_y (f : t) (bounds : BOX2D) (r : nat) : Q :=
  miny bounds + (inject_Z (Z.of_nat r) + (1 # 2)) * m_cellSize f.

(** The view [temp] of the centres of the populated cells with their
    minimum elevation. *)
Definition populated_cells (f : t) (bounds : BOX2D) (rows cols : nat)
                           (ZImin : list (option Q)) : list (Q * Q * Q) :=
  '(c, r) ← cells rows cols;
  match ZImin !! (c * rows + r)%nat with
  | Some (Some z) => [(cell_x f bounds c, cell_y f bounds r, z)]
  | _ => []
  end.

(** Every empty cell takes the elevation of the nearest populated cell. *)
Definition fill_gaps (f : t) (bounds : BOX2D) (rows cols : nat)
                     (ZImin : list (option Q)) (temp : list (Q * Q * Q))
                     (kdi : KD2Index.t) : outcome (list Q) :=
  omap_list (fun '(c, r) =>
    cell ← of_option (ZImin !! (c * rows + r)%nat);
    match cell with
    | Some z => Done z
    | None =>
        let neighbors := KD2Index.knnSearch kdi (cell_x f bounds c) (cell_y f bounds r) 1 in
        nn ← of_option (temp !! hd 0%nat neighbors);
        Done (snd nn)
    end) (cells rows cols).

(** The [while (ws < m_maxWindowSize)] loop: the series of window sizes
    and height thresholds. *)
Definition window_size (f : t) (iter : nat) : Q :=
  if m_exponential f
  then m_cellSize f * (2 * inject_Z (2 ^ Z.of_nat iter) + 1)
  else m_cellSize f * (2 * (inject_Z (Z.of_nat iter) + 1) * 2 + 1).

Fixpoint scales (fuel : nat) (f : t) (iter : nat) (ws : Q) (wsvec htvec : list Q)
  : outcome (list Q * list Q) :=
  if Qltb ws (m_maxWindowSize f) then
    match fuel with
    | O => OutOfFuel
    | S fuel' =>
        let ws := window_size f iter in
        ht ← (if Nat.eqb iter 0 then Done (m_initialDistance f)
              else prev ← of_option (wsvec !! (iter - 1)%nat);
                   Done (m_slope f * (ws - prev) * m_cellSize f + m_initialDistance f));
        let ht := if Qltb (m_maxDistance f) ht then m_maxDistance f else ht in
        scales fuel' f (S iter) ws (wsvec ++ [ws]) (htvec ++ [ht])
    end
  else Done (wsvec, htvec).

Section Stage.
(** Which points [Segmentation::segmentLastReturns] takes for last
    returns. *)
Variable isLast : Point -> bool.

(** [eigen::erodeDiamond] and [eigen::dilateDiamond]. *)
Variable erodeDiamond dilateDiamond : list Q -> nat -> nat -> Z -> list Q.

(** One iteration of the progressive filter: open the surface, keep
    the ground points that are less than the threshold above it. *)
Definition filter_pass (f : t) (table : PointTable) (view : PointViewPtr)
                       (bounds : BOX2D) (rows cols : Z)
                       (st : list Q * list PointId) (wsht : Q * Q)
  : outcome (list Q * list PointId) :=
  let '(ZImin, groundIdx) := st in
  let '(ws, ht) := wsht in
  let iters := Qtrunc ((1 # 2) * (ws - 1)) in
  let me := erodeDiamond ZImin (Z.to_nat rows) (Z.to_nat cols) iters in
  let mo := dilateDiamond me (Z.to_nat rows) (Z.to_nat cols) iters in
  groundNewIdx ←
    ofold (fun groundNewIdx p_idx =>
             let x := view_getFieldAs table view Dimension.X p_idx in
             let y := view_getFieldAs table view Dimension.Y p_idx in
             let z := view_getFieldAs table view Dimension.Z p_idx in
             m ← vec_at mo (filter_index f bounds rows x y);
             if Qltb (z - m) ht then Done (groundNewIdx ++ [p_idx])
             else Done groundNewIdx)
          [] groundIdx;
  Done (mo, groundNewIdx).

Definition processGround (fuel : nat) (f : t) (table : PointTable)
                         (view : PointViewPtr) : outcome PointTable :=
  bounds ← of_option (calculateBounds table view);
  cols ← grid_size f (minx bounds) (maxx bounds);
  rows ← grid_size f (miny bounds) (maxy bounds);
  let ZImin := replicate (Z.to_nat (rows * cols)) None in
  ZImin ← ofold (bin_point f table bounds rows) ZImin view;
  let temp := populated_cells f bounds (Z.to_nat rows) (Z.to_nat cols) ZImin in
  let kdi := KD2Index.build temp in
  ZImin ← fill_gaps f bounds (Z.to_nat rows) (Z.to_nat cols) ZImin temp kdi;
  let groundIdx := seq 0 (length view) in
  '(wsvec, htvec) ← scales fuel f 0 0 [] [];
  '(_, groundIdx) ← ofold (filter_pass f table view bounds rows cols)
                          (ZImin, groundIdx) (zip wsvec htvec);
  Done (foldl (fun table i => view_setField view Dimension.Classification i 2 table)
              table groundIdx).

(** The ignored and the kept views of [run]: (kept, ignored). *)
Definition segment_ignored (f : t) (table : PointTable) (input : PointViewPtr)
  : PointViewPtr * PointViewPtr :=
  if Dimension.eqb (m_id (m_ignored f)) Dimension.Unknown
  then (input, [])
  else Segmentation.ignoreDimRange (m_ignored f) table input.

(** Every kept point is classified 1. *)
Definition classify_kept (keptView : PointViewPtr) (table : PointTable) : PointTable :=
  foldl (fun table i => view_setField keptView Dimension.Classification i 1 table)
        table (seq 0 (length keptView)).

(** The last and the other-than-last views of [run]: (last, nonlast). *)
Definition segment_last (f : t) (table : PointTable) (keptView : PointViewPtr)
  : PointViewPtr * PointViewPtr :=
  if m_lastOnly f
  then Segmentation.segmentLastReturns isLast table keptView
  else (keptView, []).

(** [run]: the table after the stage and the views it returns. *)
Definition run (fuel : nat) (f : t) (table : PointTable) (input : PointViewPtr)
  : outcome (PointTable * list PointViewPtr) :=
  if Nat.eqb (length input) 0 then Done (table, [])
  else
    let '(keptView, ignoredView) := segment_ignored f table input in
    let table := classify_kept keptView table in
    let '(lastView, nonlastView) := segment_last f table keptView in
    table ← processGround fuel f table lastView;
    let outView := ignoredView ++ nonlastView ++ lastView in
    Done (table, [outView]).
End Stage.
End PMFFilter.

(** ** drivers.faux.reader *)

Module FauxReader.

Inductive Mode : Type := Constant | Random | Ramp.

Inductive DimensionId : Type := X_f64 | Y_f64 | Z_f64 | Time_u64 | Other (n : nat).

Definition DimensionId_eqb (a b : DimensionId) : bool :=
  match a, b with
  | X_f64, X_f64 | Y_f64, Y_f64 | Z_f64, Z_f64 | Time_u64, Time_u64 => true
  | Other n, Other m => Nat.eqb n m
  | _, _ => false
  end.

(** What is thrown: [not_yet_implemented] by [processBuffer]. *)
Inductive exception : Type :=
  | not_yet_implemented.

(** The three ranges of [Bounds<double>] that [processBuffer] reads. *)
Record Bounds : Type := mkBounds {
  minX : Q; maxX : Q; minY : Q; maxY : Q; minZ : Q; maxZ : Q
}.

Record t : Type := mk {
  m_bounds : Bounds;
  m_numPoints : Z;
  m_mode : Mode
}.

(** A cell of a row of a point buffer: a double (finite, or [None] for
    an infinity or a NaN), an unsigned 64-bit integer, or a field that
    was not written. *)
Inductive cell : Type :=
  | F64 (v : option Q)
  | U64 (n : Z)
  | Unset.

(** The part of [PointBuffer] that [processBuffer] uses: the dimensions
    of the schema, the capacity (a [uint32_t], so from 0 to 2^32 - 1)
    and as many rows of one cell per dimension, and the number of
    points set. *)
Record PointBuffer : Type := mkPointBuffer {
  pb_schema : list DimensionId;
  pb_capacity : Z;
  pb_numPoints : Z;
  pb_rows : list (list cell)
}.

(** [schema.getDimensionIndex(id)]: the position of the dimension. *)
Fixpoint getDimensionIndex (schema : list DimensionId) (id : DimensionId) : option nat :=
  match schema with
  | [] => None
  | d :: schema' =>
      if DimensionId_eqb d id then Some 0%nat
      else option_map S (getDimensionIndex schema' id)
  end.

(** [data.setField<T>(pointIndex, offset, v)]. *)
Definition setField (pointIndex offset : nat) (v : cell) (rows : list (list cell))
  : list (list cell) :=
  alter (fun row => <[offset := v]> row) pointIndex rows.

Definition uint64 (n : Z) : Z := (n mod 2 ^ 64)%Z.

(** [a + b * i] on doubles, where [b] may not be finite. *)
Definition ramp (a : Q) (b : option Q) (i : Z) : option Q :=
  match b with
  | Some d => Some (a + d * inject_Z i)
  | None => None
  end.

(** [(hi - lo) / numDeltas]: not finite when [numDeltas] is 0. *)
Definition delta (lo hi numDeltas : Q) : option Q :=
  if Qeq_bool numDeltas 0 then None else Some ((hi - lo) / numDeltas).

Section ProcessBuffer.
(** [Utils::random(min, max)] at the call for the point [pointIndex] and
    the axis 0, 1 or 2. *)
Variable random : nat -> nat -> Q -> Q -> Q.

(** The body of the loop of [processBuffer] for one [pointIndex]. *)
Definition generate (r : t) (index : Z) (offsetX offsetY offsetZ offsetT : nat)
                    (rows : list (list cell)) (pointIndex : nat) : list (list cell) :=
  let b := m_bounds r in
  let numDeltas := inject_Z (m_numPoints r) - 1 in
  let delX := delta (minX b) (maxX b) numDeltas in
  let delY := delta (minY b) (maxY b) numDeltas in
  let delZ := delta (minZ b) (maxZ b) numDeltas in
  let '(x, y, z) :=
    match m_mode r with
    | Random =>
        (Some (random pointIndex 0 (minX b) (maxX b)),
         Some (random pointIndex 1 (minY b) (maxY b)),
         Some (random pointIndex 2 (minZ b) (maxZ b)))
    | Constant => (Some (minX b), Some (minY b), Some (minZ b))
    | Ramp =>
        (ramp (minX b) delX (Z.of_nat pointIndex),
         ramp (minY b) delY (Z.of_nat pointIndex),
         ramp (minZ b) delZ (Z.of_nat pointIndex))
    end in
  let time := uint64 (index + Z.of_nat pointIndex) in
  setField pointIndex offsetT (U64 time)
    (setField pointIndex offsetZ (F64 z)
       (setField pointIndex offsetY (F64 y)
          (setField pointIndex offsetX (F64 x) rows))).

(** [processBuffer]: the buffer as it is left and the count returned, or
    the exception thrown. A schema of four dimensions that lacks one of
    X, Y, Z and Time gives no position to write to: [Undefined]. *)
Definition processBuffer (r : t) (data : PointBuffer) (index : Z)
  : exception + outcome (PointBuffer * Z) :=
  if negb (Nat.eqb (length (pb_schema data)) 4) then inl not_yet_implemented
  else
    let numPointsWanted := pb_capacity data in
    let numPointsAvailable := uint64 (m_numPoints r - index) in
    let numPointsWanted :=
      if (numPointsAvailable <? numPointsWanted)%Z then numPointsAvailable
      else numPointsWanted in
    inr (offsetT ← of_option (getDimensionIndex (pb_schema data) Time_u64);
         offsetX ← of_option (getDimensionIndex (pb_schema data) X_f64);
         offsetY ← of_option (getDimensionIndex (pb_schema data) Y_f64);
         offsetZ ← of_option (getDimensionIndex (pb_schema data) Z_f64);
         let rows :=
           foldl (generate r index offsetX offsetY offsetZ offsetT)
                 (pb_rows data) (seq 0 (Z.to_nat numPointsWanted)) in
         Done (mkPointBuffer (pb_schema data) (pb_capacity data) numPointsWanted rows,
               numPointsWanted)).
End ProcessBuffer.
End FauxReader.

(** ** Vocabulary of the statements *)

(** How many of the votes are for the value [v]. *)
Definition count_votes (v : Q) (votes : list Q) : Z :=
  Z.of_nat (length (List.filter (Qeq_bool v) votes)).

(** The map of counts after the votes have been tallied in order. *)
Definition tally (votes : list Q) : list (Q * Z) :=
  foldl (fun counts v => KNNAssignFilter.counts_incr v counts) [] votes.

(** The count the map holds for [v], 0 without an entry. *)
Definition counts_get (v : Q) (counts : list (Q * Z)) : Z :=
  match List.find (fun p => Qeq_bool (fst p) v) counts with
  | Some p => snd p
  | None => 0%Z
  end.

(** The values the neighbours [iSrc] vote for. *)
Definition votes_of (f : KNNAssignFilter.t) (temp : PointView) (iSrc : list PointId)
  : list Q :=
  map (fun id => getFieldAs (KNNAssignFilter.m_dim f) (temp !!! id)) iSrc.

(** Whether the value of the point on the dimension of the range passes
    the range: the test of the loop of [doOne]. *)
Definition range_passes (r : DimRange) (point : Point) : bool :=
  valuePasses r (getFieldAs (m_id r) point).

Definition key_lt (p1 p2 : Q * Z) : Prop := fst p1 < fst p2.

(** What the tally maintains: ascending keys, the count of every value
    seen so far, no entry without a vote. *)
Record tally_inv (seen : list Q) (counts : list (Q * Z)) : Prop := {
  inv_sorted : StronglySorted key_lt counts;
  inv_get : forall v, counts_get v counts = count_votes v seen;
  inv_pos : Forall (fun p => (1 <= snd p)%Z) counts
}.


(** The factor of the cell size in the window size of iteration [i], and
    its growth from one iteration to the next. *)
Definition window_factor (f : PMFFilter.t) (i : nat) : Q :=
  if PMFFilter.m_exponential f then 2 * inject_Z (2 ^ Z.of_nat i) + 1
  else 2 * (inject_Z (Z.of_nat i) + 1) * 2 + 1.


(** A box that holds the X and Y of a point. *)
Definition in_box (b : BOX2D) (p : Point) : Prop :=
  (minx b <= pt_X p /\ pt_X p <= maxx b) /\ (miny b <= pt_Y p /\ pt_Y p <= maxy b).

(** A raster with a populated cell. *)
Definition populated (ZImin : list (option Q)) : Prop :=
  exists i z, ZImin !! i = Some (Some z).

(** The morphology returns a raster of the size it was given. *)
Definition keeps_size (morph : list Q -> nat -> nat -> Z -> list Q) : Prop :=
  forall data rows cols iters,
    length data = (cols * rows)%nat -> length (morph data rows cols iters) = (cols * rows)%nat.

(** Two points that agree on every dimension but [d]. *)
Definition same_but (d : Dimension.Id) (p p' : Point) : Prop :=
  forall d', d' <> d -> getFieldAs d' p' = getFieldAs d' p.

(** The sum of the counts of a tally. *)
Definition sum_counts (counts : list (Q * Z)) : Z :=
  foldr (fun p acc => (snd p + acc)%Z) 0%Z counts.

(** A point [doOne] votes on: there is no range, or the point passes one. *)
Definition eligible (f : KNNAssignFilter.t) (point : Point) : bool :=
  match KNNAssignFilter.m_domain f with
  | [] => true
  | dom => existsb (fun r => range_passes r point) dom
  end.

(** A range with the id of the dimension its name has in the layout. *)
Definition resolved (layout : PointLayout) (r : DimRange) : DimRange :=
  with_id r (findDim layout (m_name r)).


(** The raster cell a point is binned into, as a position of the raster. *)
Definition bin_of (f : PMFFilter.t) (bounds : BOX2D) (rows : Z) (p : Point) : nat :=
  Z.to_nat (PMFFilter.bin_index f bounds rows (pt_X p) (pt_Y p)).

(** The minimum surface of the points binned so far. *)
Definition bin_inv (f : PMFFilter.t) (table : list Point) (bounds : BOX2D) (rows : Z)
    (n : nat) (binned : list nat) (ZImin : list (option Q)) : Prop :=
  length ZImin = n /\
  (forall idx, idx ∈ binned ->
     exists z, ZImin !! bin_of f bounds rows (table !!! idx) = Some (Some z) /\
               z <= pt_Z (table !!! idx)) /\
  (forall i z, ZImin !! i = Some (Some z) ->
     exists idx, idx ∈ binned /\ bin_of f bounds rows (table !!! idx) = i /\
                 z = pt_Z (table !!! idx)).

(** A schema that holds the four dimensions [processBuffer] writes, at
    the given positions. *)
Definition faux_offsets (schema : list FauxReader.DimensionId)
    (offsetX offsetY offsetZ offsetT : nat) : Prop :=
  FauxReader.getDimensionIndex schema FauxReader.X_f64 = Some offsetX /\
  FauxReader.getDimensionIndex schema FauxReader.Y_f64 = Some offsetY /\
  FauxReader.getDimensionIndex schema FauxReader.Z_f64 = Some offsetZ /\
  FauxReader.getDimensionIndex schema FauxReader.Time_u64 = Some offsetT.

(** The number of points [processBuffer] writes. *)
Definition faux_count (r : FauxReader.t) (data : FauxReader.PointBuffer) (index : Z) : Z :=
  Z.min (FauxReader.pb_capacity data) (FauxReader.uint64 (FauxReader.m_numPoints r - index)).

(** Four fields written into a row. *)
Definition write4 (oX oY oZ oT : nat) (x y z t : FauxReader.cell)
    (row : list FauxReader.cell) : list FauxReader.cell :=
  <[oT := t]> (<[oZ := z]> (<[oY := y]> (<[oX := x]> row))).

(** The coordinates [processBuffer] makes up for the point [i] of a
    buffer. *)
Definition faux_xyz (random : nat -> nat -> Q -> Q -> Q) (r : FauxReader.t) (i : nat)
  : option Q * option Q * option Q :=
  let b := FauxReader.m_bounds r in
  let numDeltas := inject_Z (FauxReader.m_numPoints r) - 1 in
  match FauxReader.m_mode r with
  | FauxReader.Random =>
      (Some (random i 0%nat (FauxReader.minX b) (FauxReader.maxX b)),
       Some (random i 1%nat (FauxReader.minY b) (FauxReader.maxY b)),
       Some (random i 2%nat (FauxReader.minZ b) (FauxReader.maxZ b)))
  | FauxReader.Constant =>
      (Some (FauxReader.minX b), Some (FauxReader.minY b), Some (FauxReader.minZ b))
  | FauxReader.Ramp =>
      (FauxReader.ramp (FauxReader.minX b)
         (FauxReader.delta (FauxReader.minX b) (FauxReader.maxX b) numDeltas) (Z.of_nat i),
       FauxReader.ramp (FauxReader.minY b)
         (FauxReader.delta (FauxReader.minY b) (FauxReader.maxY b) numDeltas) (Z.of_nat i),
       FauxReader.ramp (FauxReader.minZ b)
         (FauxReader.delta (FauxReader.minZ b) (FauxReader.maxZ b) numDeltas) (Z.of_nat i))
  end.

(** The row of the point [i] after [processBuffer] at [index]. *)
Definition faux_row (random : nat -> nat -> Q -> Q -> Q) (r : FauxReader.t) (index : Z)
    (oX oY oZ oT : nat) (i : nat) (row : list FauxReader.cell) : list FauxReader.cell :=
  let '(x, y, z) := faux_xyz random r i in
  write4 oX oY oZ oT (FauxReader.F64 x) (FauxReader.F64 y) (FauxReader.F64 z)
    (FauxReader.U64 (FauxReader.uint64 (index + Z.of_nat i))) row.


(** ** Sample inputs *)

(** A point at (x, 0, 0) with a classification, a single return. *)
Definition cls (x : Z) (c : Z) : Point := mkPoint (inject_Z x) 0 0 (inject_Z c) 1 1.

(** The range [Classification[5:6)], not resolved yet. *)
Definition range_5_6 : DimRange :=
  mkDimRange "Classification" Dimension.Unknown (Some 5) true (Some 6) false false.

(** The range [ReturnNumber[1:1]], not resolved yet. *)
Definition range_rn_1 : DimRange :=
  mkDimRange "ReturnNumber" Dimension.Unknown (Some 1) true (Some 1) true false.

(** A point at (x, y, z), unclassified, a single return. *)
Definition xyz (x y z : Q) : Point := mkPoint x y z 0 1 1.

(** Last returns: the return number is the number of returns. *)
Definition last_return (p : Point) : bool :=
  Qeq_bool (pt_ReturnNumber p) (pt_NumberOfReturns p).

Definition las_layout : PointLayout :=
  [("X"%string, Dimension.X); ("Y"%string, Dimension.Y); ("Z"%string, Dimension.Z);
   ("ReturnNumber"%string, Dimension.ReturnNumber);
   ("NumberOfReturns"%string, Dimension.NumberOfReturns);
   ("Classification"%string, Dimension.Classification)].

(** A parser that knows one range and rejects every other text. *)
Definition parse_one (text : string) : string + DimRange :=
  if String.eqb text "Classification[5:6)" then inr range_5_6
  else inl "Unable to parse range."%string.

(** Four points: two last returns on the ground, a last return 10 above
    it, and a first return of two. *)
Definition pmf_table : list Point :=
  [mkPoint 0 0 0 5 1 1; mkPoint (5 # 2) 0 0 5 1 2; mkPoint 1 1 10 5 2 2;
   mkPoint 2 0 0 7 1 1].

(** The defaults of filters.pmf with [ignore] set to Classification[7:7],
    as [prepared] leaves them. *)
Definition pmf_ignore_7 : PMFFilter.t :=
  PMFFilter.mk 1 true
    (mkDimRange "Classification" Dimension.Classification (Some 7) true (Some 7) true false)
    (15 # 100) true (25 # 10) 33 1.

(** The default schema of the faux reader. *)
Definition faux_schema : list FauxReader.DimensionId :=
  [FauxReader.X_f64; FauxReader.Y_f64; FauxReader.Z_f64; FauxReader.Time_u64].

(** A buffer of that schema with room for [capacity] points, nothing
    written yet. *)
Definition faux_buffer (capacity : nat) : FauxReader.PointBuffer :=
  FauxReader.mkPointBuffer faux_schema (Z.of_nat capacity) 0
    (replicate capacity (replicate 4 FauxReader.Unset)).

(** A faux reader of [n] points over the box from (0, 0, 0) to
    (10, 20, 30). *)
Definition faux_reader (n : Z) (mode : FauxReader.Mode) : FauxReader.t :=
  FauxReader.mk (FauxReader.mkBounds 0 10 0 20 0 30) n mode.

(** A generator that always returns the lower end of its range. *)
Definition faux_random (_ _ : nat) (lo _ : Q) : Q := lo.

(** * Properties *)

(** ** Comparisons and conversions of doubles *)

Lemma Qltb_lt (x y : Q) : Qltb x y = true <-> x < y.
Proof.
  unfold Qltb. rewrite negb_true_iff. split.
  - intros H. apply Qnot_le_lt. intros Hle. apply Qle_bool_iff in Hle. congruence.
  - intros H. destruct (Qle_bool y x) eqn:E; [|reflexivity].
    apply Qle_bool_iff in E. exfalso. apply (Qlt_not_le _ _ H E).
Qed.

Lemma Qltb_ge (x y : Q) : Qltb x y = false <-> y <= x.
Proof.
  unfold Qltb. rewrite negb_false_iff. apply Qle_bool_iff.
Qed.

Lemma Dimension_to_nat_inj a b : Dimension.to_nat a = Dimension.to_nat b -> a = b.
Proof. destruct a, b; simpl; congruence. Qed.

Lemma Dimension_eqb_eq a b : Dimension.eqb a b = true <-> a = b.
Proof.
  unfold Dimension.eqb. rewrite Nat.eqb_eq.
  split; [apply Dimension_to_nat_inj | congruence].
Qed.

(** ** The tally of the votes and its winner *)

Section Tally.
Import KNNAssignFilter.

Lemma count_votes_nil v : count_votes v [] = 0%Z.
Proof. reflexivity. Qed.

Lemma count_votes_nonneg v votes : (0 <= count_votes v votes)%Z.
Proof. unfold count_votes. lia. Qed.

Lemma count_votes_le_length v votes : (count_votes v votes <= Z.of_nat (length votes))%Z.
Proof.
  unfold count_votes. pose proof (List.filter_length_le (Qeq_bool v) votes). lia.
Qed.

Lemma count_votes_snoc v votes w :
  count_votes v (votes ++ [w]) =
  (count_votes v votes + (if Qeq_bool v w then 1 else 0))%Z.
Proof.
  unfold count_votes. rewrite List.filter_app, length_app. simpl.
  destruct (Qeq_bool v w); simpl; lia.
Qed.

Lemma count_votes_proper v v' votes : v == v' -> count_votes v votes = count_votes v' votes.
Proof.
  intros Hv. unfold count_votes. f_equal. f_equal.
  apply List.filter_ext. intros u.
  destruct (Qeq_bool v u) eqn:E1, (Qeq_bool v' u) eqn:E2; try reflexivity.
  - apply Qeq_bool_iff in E1. apply Qeq_bool_neq in E2. exfalso. apply E2.
    rewrite <- Hv. exact E1.
  - apply Qeq_bool_iff in E2. apply Qeq_bool_neq in E1. exfalso. apply E1.
    rewrite Hv. exact E2.
Qed.

Lemma Qeq_bool_comm x y : Qeq_bool x y = Qeq_bool y x.
Proof.
  destruct (Qeq_bool x y) eqn:E1, (Qeq_bool y x) eqn:E2; try reflexivity.
  - apply Qeq_bool_iff in E1. apply Qeq_bool_neq in E2. exfalso. apply E2. symmetry. exact E1.
  - apply Qeq_bool_iff in E2. apply Qeq_bool_neq in E1. exfalso. apply E1. symmetry. exact E2.
Qed.

Lemma counts_get_above w counts v :
  Forall (fun p => w < fst p) counts -> v == w -> counts_get v counts = 0%Z.
Proof.
  intros Hall Hv. unfold counts_get.
  induction Hall as [|p counts Hp _ IH]; simpl; [reflexivity|].
  destruct (Qeq_bool (fst p) v) eqn:E; [|exact IH].
  apply Qeq_bool_iff in E. rewrite E, Hv in Hp. exfalso. apply (Qlt_irrefl _ Hp).
Qed.

Lemma counts_incr_keys (P : Q -> Prop) w counts :
  P w -> Forall (fun p => P (fst p)) counts ->
  Forall (fun p => P (fst p)) (counts_incr w counts).
Proof.
  intros Hw Hall. induction Hall as [|[key c] counts Hp Hall IH]; simpl.
  - constructor; [exact Hw|constructor].
  - destruct (w ?= key) eqn:E.
    + constructor; [exact Hp|exact Hall].
    + constructor; [exact Hw|]. constructor; [exact Hp|exact Hall].
    + constructor; [exact Hp|exact IH].
Qed.

Lemma counts_incr_sorted w counts :
  StronglySorted key_lt counts -> StronglySorted key_lt (counts_incr w counts).
Proof.
  induction 1 as [|[key c] counts Hs IH Hall]; simpl.
  - constructor; [constructor|constructor].
  - destruct (w ?= key) eqn:E.
    + constructor; [exact Hs|exact Hall].
    + apply Qlt_alt in E. constructor.
      * constructor; [exact Hs|exact Hall].
      * constructor; [exact E|].
        eapply Forall_impl; [exact Hall|]. intros p Hp. unfold key_lt in *. simpl in *.
        eapply Qlt_trans; eassumption.
    + apply Qgt_alt in E. constructor; [exact IH|].
      apply (counts_incr_keys (fun k => key < k)); [exact E|exact Hall].
Qed.

Lemma counts_get_incr w counts v :
  StronglySorted key_lt counts ->
  counts_get v (counts_incr w counts) =
  if Qeq_bool v w then uint_incr (counts_get v counts) else counts_get v counts.
Proof.
  induction 1 as [|[key c] counts Hs IH Hall]; simpl.
  - unfold counts_get. simpl. rewrite (Qeq_bool_comm w v).
    destruct (Qeq_bool v w); reflexivity.
  - destruct (w ?= key) eqn:E.
    + apply Qeq_alt in E. unfold counts_get. simpl.
      destruct (Qeq_bool key v) eqn:Ek.
      * apply Qeq_bool_iff in Ek.
        assert (Hvw : Qeq_bool v w = true) by (apply Qeq_bool_iff; rewrite E; symmetry; exact Ek).
        rewrite Hvw. reflexivity.
      * assert (Hvw : Qeq_bool v w = false).
        { destruct (Qeq_bool v w) eqn:Hvw; [|reflexivity].
          apply Qeq_bool_iff in Hvw. apply Qeq_bool_neq in Ek. exfalso. apply Ek.
          rewrite Hvw, E. reflexivity. }
        rewrite Hvw. reflexivity.
    + apply Qlt_alt in E. destruct (Qeq_bool v w) eqn:Hvw.
      * apply Qeq_bool_iff in Hvw.
        rewrite (counts_get_above w ((key, c) :: counts) v).
        -- unfold counts_get. simpl.
           assert (Hwv : Qeq_bool w v = true) by (apply Qeq_bool_iff; symmetry; exact Hvw).
           rewrite Hwv. reflexivity.
        -- constructor; [exact E|]. eapply Forall_impl; [exact Hall|].
           intros p Hp. unfold key_lt in Hp. simpl in *. eapply Qlt_trans; eassumption.
        -- exact Hvw.
      * unfold counts_get at 1. simpl.
        assert (Hwv : Qeq_bool w v = false).
        { rewrite Qeq_bool_comm. exact Hvw. }
        rewrite Hwv. reflexivity.
    + apply Qgt_alt in E. unfold counts_get in *. simpl.
      destruct (Qeq_bool key v) eqn:Ek.
      * apply Qeq_bool_iff in Ek.
        assert (Hvw : Qeq_bool v w = false).
        { destruct (Qeq_bool v w) eqn:Hvw; [|reflexivity].
          apply Qeq_bool_iff in Hvw. rewrite <- Hvw, <- Ek in E.
          exfalso. apply (Qlt_irrefl _ E). }
        rewrite Hvw. reflexivity.
      * exact IH.
Qed.

Lemma counts_get_cases v counts :
  (exists p, p ∈ counts /\ fst p == v /\ counts_get v counts = snd p) \/
  ((forall p, p ∈ counts -> ~ fst p == v) /\ counts_get v counts = 0%Z).
Proof.
  unfold counts_get.
  destruct (List.find (fun p => Qeq_bool (fst p) v) counts) as [p|] eqn:E.
  - left. apply List.find_some in E as [Hin Heq]. exists p.
    split; [apply list_elem_of_In; exact Hin|]. split; [|reflexivity].
    apply Qeq_bool_iff. exact Heq.
  - right. split; [|reflexivity]. intros p Hin Heq.
    apply list_elem_of_In in Hin.
    pose proof (List.find_none _ _ E p Hin) as Hn. simpl in Hn.
    apply Qeq_bool_neq in Hn. apply Hn. exact Heq.
Qed.

Lemma counts_get_entry counts p :
  StronglySorted key_lt counts -> p ∈ counts -> counts_get (fst p) counts = snd p.
Proof.
  induction 1 as [|q counts Hs IH Hall]; intros Hin.
  - inversion Hin.
  - unfold counts_get. simpl. apply elem_of_cons in Hin as [->|Hin].
    + assert (E : Qeq_bool (fst q) (fst q) = true) by (apply Qeq_bool_iff; reflexivity).
      rewrite E. reflexivity.
    + assert (E : Qeq_bool (fst q) (fst p) = false).
      { destruct (Qeq_bool (fst q) (fst p)) eqn:E; [|reflexivity].
        apply Qeq_bool_iff in E. rewrite Forall_forall in Hall.
        specialize (Hall p Hin). unfold key_lt in Hall. rewrite E in Hall.
        exfalso. apply (Qlt_irrefl _ Hall). }
      rewrite E. apply IH. exact Hin.
Qed.

Lemma uint_incr_small c : (0 <= c < 2 ^ 32 - 1)%Z -> uint_incr c = (c + 1)%Z.
Proof. intros H. unfold uint_incr. apply Z.mod_small. lia. Qed.

Lemma counts_incr_pos w counts :
  Forall (fun p => (1 <= snd p < 2 ^ 32 - 1)%Z) counts ->
  Forall (fun p => (1 <= snd p)%Z) (counts_incr w counts).
Proof.
  induction 1 as [|[key c] counts Hp Hall IH]; simpl.
  - constructor; [|constructor]. simpl. rewrite uint_incr_small; lia.
  - simpl in Hp. assert (Hall' : Forall (fun p => (1 <= snd p)%Z) counts).
    { eapply Forall_impl; [exact Hall|]. simpl. intros; lia. }
    destruct (w ?= key).
    + constructor; [|exact Hall']. simpl. rewrite uint_incr_small; lia.
    + constructor; [simpl; rewrite uint_incr_small; lia|].
      constructor; [simpl; lia|exact Hall'].
    + constructor; [simpl; lia|exact IH].
Qed.

Lemma tally_inv_bound seen counts :
  tally_inv seen counts ->
  Forall (fun p => (1 <= snd p <= Z.of_nat (length seen))%Z) counts.
Proof.
  intros [Hs Hg Hp]. rewrite Forall_forall in *. intros p Hin.
  split; [apply Hp; exact Hin|].
  rewrite <- (counts_get_entry counts p Hs Hin), Hg. apply count_votes_le_length.
Qed.

Lemma tally_inv_step seen counts w :
  tally_inv seen counts -> (Z.of_nat (length seen) < 2 ^ 32 - 1)%Z ->
  tally_inv (seen ++ [w]) (counts_incr w counts).
Proof.
  intros Hinv Hlen. pose proof (tally_inv_bound _ _ Hinv) as Hb.
  destruct Hinv as [Hs Hg Hp]. split.
  - apply counts_incr_sorted. exact Hs.
  - intros v. rewrite counts_get_incr by exact Hs. rewrite count_votes_snoc, Hg.
    destruct (Qeq_bool v w); [|lia].
    apply uint_incr_small. pose proof (count_votes_nonneg v seen).
    pose proof (count_votes_le_length v seen). lia.
  - apply counts_incr_pos. eapply Forall_impl; [exact Hb|]. simpl. intros; lia.
Qed.

Lemma tally_inv_nil : tally_inv [] [].
Proof. split; [constructor|reflexivity|constructor]. Qed.

Lemma tally_inv_foldl votes : forall seen counts,
  tally_inv seen counts -> (Z.of_nat (length (seen ++ votes)) < 2 ^ 32)%Z ->
  tally_inv (seen ++ votes) (foldl (fun counts v => counts_incr v counts) counts votes).
Proof.
  induction votes as [|w votes IH]; intros seen counts Hinv Hlen; simpl.
  - rewrite app_nil_r. exact Hinv.
  - replace (seen ++ w :: votes) with ((seen ++ [w]) ++ votes)
      by (rewrite <- app_assoc; reflexivity).
    apply IH.
    + apply tally_inv_step; [exact Hinv|].
      rewrite length_app in Hlen. simpl in Hlen. lia.
    + rewrite <- app_assoc. exact Hlen.
Qed.

Lemma tally_inv_tally votes :
  (Z.of_nat (length votes) < 2 ^ 32)%Z -> tally_inv votes (tally votes).
Proof.
  intros Hlen. apply (tally_inv_foldl votes [] []); [apply tally_inv_nil|exact Hlen].
Qed.

Lemma int_of_uint_small c : (0 <= c < 2 ^ 31)%Z -> int_of_uint c = c.
Proof.
  intros H. unfold int_of_uint. destruct (Z.ltb_spec c (2 ^ 31)); [reflexivity|lia].
Qed.

Lemma max_element_from_spec l : forall largest,
  Forall (fun p => (0 <= snd p < 2 ^ 31)%Z) (largest :: l) ->
  StronglySorted key_lt (largest :: l) ->
  let r := max_element_from largest l in
  r ∈ largest :: l /\
  forall p, p ∈ largest :: l ->
    (snd p <= snd r)%Z /\ (snd p = snd r -> fst r <= fst p).
Proof.
  induction l as [|x l IH]; intros largest Hb Hs; simpl.
  - split; [apply list_elem_of_singleton; reflexivity|].
    intros p Hp. apply list_elem_of_singleton in Hp as ->.
    split; [lia|intros _; apply Qle_refl].
  - inversion Hb as [|? ? Hbl Hb']; subst. inversion Hb' as [|? ? Hbx Hb'']; subst.
    inversion Hs as [|? ? Hs' Hall]; subst. inversion Hall as [|? ? Hlx Hall']; subst.
    unfold vote_less. rewrite !int_of_uint_small by assumption.
    destruct (Z.ltb_spec (snd largest) (snd x)) as [Hlt|Hge].
    + destruct (IH x Hb' Hs') as [Hin Hmax]. split; [right; exact Hin|].
      intros p Hp. apply elem_of_cons in Hp as [->|Hp]; [|apply Hmax; exact Hp].
      destruct (Hmax x) as [Hle _]; [left|]. split; [lia|intros Heq; lia].
    + assert (Hs2 : StronglySorted key_lt (largest :: l)).
      { inversion Hs'; subst. constructor; assumption. }
      assert (Hb2 : Forall (fun p => (0 <= snd p < 2 ^ 31)%Z) (largest :: l)).
      { constructor; assumption. }
      destruct (IH largest Hb2 Hs2) as [Hin Hmax]. split.
      * apply elem_of_cons in Hin as [->|Hin]; [left|right; right; exact Hin].
      * intros p Hp. apply elem_of_cons in Hp as [->|Hp].
        { apply Hmax. left. }
        apply elem_of_cons in Hp as [->|Hp].
        2:{ apply Hmax. right. exact Hp. }
        destruct (Hmax largest) as [Hle Htie]; [left|].
        split; [lia|]. intros Heq.
        assert (Heq' : snd largest = snd (max_element_from largest l)) by lia.
        specialize (Htie Heq'). unfold key_lt in Hlx.
        apply Qlt_le_weak. eapply Qle_lt_trans; eassumption.
Qed.

(** The winner of a non-empty vote. *)
Lemma winner_spec votes :
  votes <> [] -> (Z.of_nat (length votes) < 2 ^ 31)%Z ->
  exists w c,
    max_element (tally votes) = Some (w, c) /\
    c = count_votes w votes /\ (1 <= c)%Z /\
    forall v, (count_votes v votes <= c)%Z /\ (count_votes v votes = c -> w <= v).
Proof.
  intros Hne Hlen.
  assert (Hinv : tally_inv votes (tally votes)) by (apply tally_inv_tally; lia).
  pose proof (tally_inv_bound _ _ Hinv) as Hb.
  destruct Hinv as [Hs Hg Hp].
  destruct (tally votes) as [|x l] eqn:Et.
  - exfalso. destruct votes as [|v votes]; [congruence|].
    specialize (Hg v). unfold counts_get in Hg. simpl in Hg.
    unfold count_votes in Hg. simpl in Hg.
    assert (E : Qeq_bool v v = true) by (apply Qeq_bool_iff; reflexivity).
    rewrite E in Hg. simpl in Hg. lia.
  - assert (Hb31 : Forall (fun p => (0 <= snd p < 2 ^ 31)%Z) (x :: l)).
    { eapply Forall_impl; [exact Hb|]. simpl. intros; lia. }
    destruct (max_element_from_spec l x Hb31 Hs) as [Hin Hmax].
    set (r := max_element_from x l) in *.
    exists (fst r), (snd r). simpl. split; [rewrite <- surjective_pairing; reflexivity|].
    assert (Hc : snd r = count_votes (fst r) votes).
    { rewrite <- Hg. symmetry. apply counts_get_entry; assumption. }
    assert (H1 : (1 <= snd r)%Z).
    { rewrite Forall_forall in Hp. apply Hp. exact Hin. }
    split; [exact Hc|]. split; [exact H1|].
    intros v. rewrite <- Hg.
    destruct (counts_get_cases v (x :: l)) as [(p & Hpin & Hpv & ->)|[_ ->]].
    + destruct (Hmax p Hpin) as [Hle Htie]. split; [exact Hle|].
      intros Heq. rewrite <- Hpv. apply Htie. exact Heq.
    + split; [lia|intros; lia].
Qed.

Lemma vote_tally_from f temp iSrc : forall counts,
  Forall (fun id => (id < length temp)%nat) iSrc ->
  ofold (fun counts id =>
           p ← of_option (temp !! id);
           Done (counts_incr (getFieldAs (m_dim f) p) counts)) counts iSrc =
  Done (foldl (fun counts v => counts_incr v counts) counts (votes_of f temp iSrc)).
Proof.
  induction iSrc as [|id iSrc IH]; intros counts Hall; simpl; [reflexivity|].
  inversion Hall as [|? ? Hid Hall']; subst.
  rewrite (list_lookup_lookup_total_lt temp id Hid). simpl.
  apply IH. exact Hall'.
Qed.

Lemma vote_tally f temp iSrc :
  Forall (fun id => (id < length temp)%nat) iSrc ->
  vote f temp iSrc = Done (tally (votes_of f temp iSrc)).
Proof. apply vote_tally_from. Qed.

(** The identifiers a nearest-neighbour query returns. *)
Lemma imap_snd_seq {A} (g : A -> Q) (pts : list A) : forall n,
  map snd (imap (fun i c => (g c, (n + i)%nat)) pts) = seq n (length pts).
Proof.
  induction pts as [|c pts IH]; intros n; simpl; [reflexivity|].
  rewrite Nat.add_0_r. f_equal.
  rewrite <- (IH (S n)). f_equal. apply imap_ext. intros i x _. simpl. f_equal. lia.
Qed.

Lemma nearest_perm {A} (dist : A -> Q) (pts : list A) :
  map snd (merge_sort by_distance (imap (fun i c => (dist c, i)) pts))
  ≡ₚ seq 0 (length pts).
Proof.
  rewrite merge_sort_Permutation.
  rewrite <- (imap_snd_seq dist pts 0). reflexivity.
Qed.

Lemma nearest_length {A} (dist : A -> Q) (pts : list A) k :
  length (nearest dist pts k) = Nat.min (Z.to_nat k) (length pts).
Proof.
  unfold nearest. rewrite length_take.
  rewrite (Permutation_length (nearest_perm dist pts)), length_seq. reflexivity.
Qed.

Lemma nearest_valid {A} (dist : A -> Q) (pts : list A) k :
  Forall (fun id => (id < length pts)%nat) (nearest dist pts k).
Proof.
  unfold nearest. apply Forall_take.
  rewrite (nearest_perm dist pts). apply Forall_forall. intros id Hin.
  apply elem_of_seq in Hin. lia.
Qed.

End Tally.

(** ** filters.knnassign: the vote, the domain, the configuration *)

Section KNN.
Import KNNAssignFilter.

Lemma thresh_majority (n c : Z) :
  Qltb (inject_Z n / 2) (inject_Z c) = (n <? 2 * c)%Z.
Proof.
  destruct (Z.ltb_spec n (2 * c)) as [H|H].
  - apply Qltb_lt. unfold Qlt, Qdiv, inject_Z. simpl. lia.
  - apply Qltb_ge. unfold Qle, Qdiv, inject_Z. simpl. lia.
Qed.

Lemma neighbors_valid kdi point k (temp : PointView) :
  length (KD3Index.m_buf kdi) = length temp ->
  Forall (fun id => (id < length temp)%nat) (KD3Index.neighbors kdi point k).
Proof.
  intros <-. apply nearest_valid.
Qed.

Lemma neighbors_length kdi point k :
  (0 <= k)%Z ->
  Z.of_nat (length (KD3Index.neighbors kdi point k)) =
  Z.min k (Z.of_nat (length (KD3Index.m_buf kdi))).
Proof.
  intros Hk. unfold KD3Index.neighbors. rewrite nearest_length. lia.
Qed.

(** C1 (as amended). For a point handed to [doOneNoDomain] with
    1 <= k and a non-empty reference view, the index returns min(k, n)
    identifiers, and the point's voting dimension is overwritten with the
    winning value exactly when the winning count is a strict majority of
    the identifiers returned (2 * count > number returned) and the winning
    value differs from the point's value; otherwise the point is returned
    as it was. With at least k reference points the number returned is k. *)
Theorem knn_reassign_majority_of_returned
    (f : t) (point : Point) (temp : PointView) (kdi : KD3Index.t) :
  (1 <= m_k f < 2 ^ 31)%Z ->
  temp <> [] ->
  length (KD3Index.m_buf kdi) = length temp ->
  let iSrc := KD3Index.neighbors kdi point (m_k f) in
  let votes := votes_of f temp iSrc in
  let oldclass := getFieldAs (m_dim f) point in
  Z.of_nat (length iSrc) = Z.min (m_k f) (Z.of_nat (length temp)) /\
  exists w c,
    max_element (tally votes) = Some (w, c) /\
    c = count_votes w votes /\
    doOneNoDomain f point temp kdi =
      Done (if (Z.of_nat (length iSrc) <? 2 * c)%Z && negb (Qeq_bool oldclass w)
            then setField (m_dim f) w point
            else point).
Proof.
  intros Hk Hne Hlen iSrc votes oldclass.
  assert (Hn : Z.of_nat (length iSrc) = Z.min (m_k f) (Z.of_nat (length temp))).
  { unfold iSrc. rewrite neighbors_length by lia. rewrite Hlen. reflexivity. }
  split; [exact Hn|].
  assert (Hvalid : Forall (fun id => (id < length temp)%nat) iSrc).
  { apply neighbors_valid. exact Hlen. }
  assert (Hlv : length votes = length iSrc).
  { unfold votes, votes_of. apply length_map. }
  assert (Hvne : votes <> []).
  { intros E. rewrite E in Hlv. simpl in Hlv.
    destruct temp; [congruence|]. simpl in Hn. lia. }
  destruct (winner_spec votes Hvne) as (w & c & Hmax & Hc & _).
  { rewrite Hlv. lia. }
  exists w, c. split; [exact Hmax|]. split; [exact Hc|].
  unfold doOneNoDomain. fold iSrc. rewrite (vote_tally f temp iSrc Hvalid).
  fold votes. simpl. rewrite Hmax. simpl.
  rewrite thresh_majority. fold oldclass.
  destruct ((Z.of_nat (length iSrc) <? 2 * c)%Z && negb (Qeq_bool oldclass w)); reflexivity.
Qed.

Lemma knn_reassign_majority_of_returned_witness :
  let f := create [] 3 "" in
  let temp := [cls 0 1; cls 2 7; cls 4 7; cls 9 1] in
  let kdi := KD3Index.build temp in
  let point := cls 0 1 in
  let iSrc := KD3Index.neighbors kdi point (m_k f) in
  let votes := votes_of f temp iSrc in
  let oldclass := getFieldAs (m_dim f) point in
  Z.of_nat (length iSrc) = Z.min (m_k f) (Z.of_nat (length temp)) /\
  exists w c,
    max_element (tally votes) = Some (w, c) /\
    c = count_votes w votes /\
    doOneNoDomain f point temp kdi =
      Done (if (Z.of_nat (length iSrc) <? 2 * c)%Z && negb (Qeq_bool oldclass w)
            then setField (m_dim f) w point
            else point).
Proof.
  apply (knn_reassign_majority_of_returned (create [] 3 "")
           (cls 0 1) [cls 0 1; cls 2 7; cls 4 7; cls 9 1]
           (KD3Index.build [cls 0 1; cls 2 7; cls 4 7; cls 9 1])).
  - simpl. lia.
  - discriminate.
  - reflexivity.
Defined.

(** C1 as stated fails: with k = 4 and three reference points, two votes
    for 7 are not more than k/2, and the point is overwritten with 7. *)
Lemma knn_majority_of_k_counterexample :
  let f := create [] 4 "" in
  let temp := [cls 0 1; cls 2 7; cls 4 7] in
  let kdi := KD3Index.build temp in
  let point := cls 0 1 in
  let votes := votes_of f temp (KD3Index.neighbors kdi point (m_k f)) in
  (1 <= m_k f)%Z /\
  max_element (tally votes) = Some (7, 2%Z) /\
  count_votes 7 votes = 2%Z /\
  ~ (inject_Z (m_k f) / 2 < inject_Z 2) /\
  doOneNoDomain f point temp kdi = Done (setField Dimension.Classification 7 point) /\
  ~ getFieldAs Dimension.Classification point == 7.
Proof.
  repeat split.
  - simpl. lia.
  - vm_compute. intros H. discriminate H.
  - vm_compute. intros H. discriminate H.
Qed.

(** A 2/2 split of four neighbours changes nothing, whatever the point's
    value is: the smaller of the tied values wins the tally with 2 votes,
    and 2 is not more than 4/2. *)
Example knn_two_two_split :
  let f := create [] 4 "" in
  let temp := [cls 0 1; cls 1 1; cls 2 7; cls 3 7] in
  let kdi := KD3Index.build temp in
  max_element (tally (votes_of f temp (KD3Index.neighbors kdi (cls 1 9) 4))) = Some (1, 2%Z) /\
  doOneNoDomain f (cls 1 9) temp kdi = Done (cls 1 9) /\
  doOneNoDomain f (cls 1 7) temp kdi = Done (cls 1 7) /\
  doOneNoDomain f (cls 1 1) temp kdi = Done (cls 1 1).
Proof. repeat split. Qed.

(** C6. For a non-empty list of neighbours, the winner picked from the
    tally has the count of its value among the votes, no value has a
    higher count, and every value with the same count is at least as
    large as the winner: ties go to the smallest value. *)
Theorem knn_winner_smallest_of_highest
    (f : t) (temp : PointView) (iSrc : list PointId) :
  iSrc <> [] ->
  (Z.of_nat (length iSrc) < 2 ^ 31)%Z ->
  Forall (fun id => (id < length temp)%nat) iSrc ->
  let votes := votes_of f temp iSrc in
  exists counts w c,
    vote f temp iSrc = Done counts /\
    max_element counts = Some (w, c) /\
    c = count_votes w votes /\
    forall v, (count_votes v votes <= c)%Z /\ (count_votes v votes = c -> w <= v).
Proof.
  intros Hne Hlen Hvalid votes.
  assert (Hlv : length votes = length iSrc) by apply length_map.
  destruct (winner_spec votes) as (w & c & Hmax & Hc & _ & Hall).
  - intros E. rewrite E in Hlv. destruct iSrc; [congruence|discriminate].
  - rewrite Hlv. exact Hlen.
  - exists (tally votes), w, c. split; [apply vote_tally; exact Hvalid|].
    split; [exact Hmax|]. split; [exact Hc|exact Hall].
Qed.

Lemma knn_winner_smallest_of_highest_witness :
  let f := create [] 4 "" in
  let temp := [cls 0 7; cls 1 3; cls 2 7; cls 3 3] in
  let iSrc := [0; 1; 2; 3]%nat in
  let votes := votes_of f temp iSrc in
  exists counts w c,
    vote f temp iSrc = Done counts /\
    max_element counts = Some (w, c) /\
    c = count_votes w votes /\
    forall v, (count_votes v votes <= c)%Z /\ (count_votes v votes = c -> w <= v).
Proof.
  apply (knn_winner_smallest_of_highest (create [] 4 "")
           [cls 0 7; cls 1 3; cls 2 7; cls 3 3] [0; 1; 2; 3]%nat).
  - discriminate.
  - simpl. lia.
  - repeat constructor.
Defined.
#[local] Instance range_le_trans : Transitive range_le.
Proof. intros a b c. unfold range_le. lia. Qed.

#[local] Instance range_le_total : Total range_le.
Proof. intros a b. unfold range_le. lia. Qed.

Lemma doOne_ranges_first f pre r post point temp kdi :
  Forall (fun r' => range_passes r' point = false) pre ->
  range_passes r point = true ->
  doOne_ranges f (pre ++ r :: post) point temp kdi = doOneNoDomain f point temp kdi.
Proof.
  intros Hpre Hr. induction Hpre as [|r' pre Hr' _ IH]; simpl.
  - unfold range_passes in Hr. rewrite Hr. reflexivity.
  - unfold range_passes in Hr'. rewrite Hr'. exact IH.
Qed.

Lemma doOne_ranges_none f dom point temp kdi :
  Forall (fun r' => range_passes r' point = false) dom ->
  doOne_ranges f dom point temp kdi = Done point.
Proof.
  induction 1 as [|r' dom Hr' _ IH]; simpl; [reflexivity|].
  unfold range_passes in Hr'. rewrite Hr'. exact IH.
Qed.

(** The loop of [doOne] votes when some range passes, in whatever order
    the ranges are: the order [std::sort] leaves them in does not change
    the result. *)
Lemma doOne_ranges_existsb f dom point temp kdi :
  doOne_ranges f dom point temp kdi =
  if existsb (fun r => range_passes r point) dom
  then doOneNoDomain f point temp kdi
  else Done point.
Proof.
  induction dom as [|r dom IH]; simpl; [reflexivity|].
  unfold range_passes at 1. destruct (valuePasses r _); simpl; [reflexivity|exact IH].
Qed.

Lemma doOne_ranges_order_irrelevant f dom dom' point temp kdi :
  dom ≡ₚ dom' ->
  doOne_ranges f dom point temp kdi = doOne_ranges f dom' point temp kdi.
Proof.
  intros Hperm. rewrite !doOne_ranges_existsb.
  assert (E : existsb (fun r => range_passes r point) dom
              = existsb (fun r => range_passes r point) dom').
  { induction Hperm as [|r l l' _ IH|r1 r2 l|l1 l2 l3 _ IH1 _ IH2]; simpl.
    - reflexivity.
    - rewrite IH. reflexivity.
    - destruct (range_passes r1 point), (range_passes r2 point); reflexivity.
    - congruence. }
  rewrite E. reflexivity.
Qed.

(** C7. After [prepared] the ranges are sorted by dimension identifier.
    Without ranges [doOne] votes on the point; with ranges it votes once,
    at the first range the point passes, whatever ranges follow; a point
    that passes no range is returned untouched. *)
Theorem knn_domain_first_match
    (layout : PointLayout) (f0 f : t)
    (point : Point) (temp : PointView) (kdi : KD3Index.t) :
  prepared layout f0 = Ok f ->
  StronglySorted range_le (m_domain f) /\
  (m_domain f = [] -> doOne f point temp kdi = doOneNoDomain f point temp kdi) /\
  (forall pre r post,
      m_domain f = pre ++ r :: post ->
      Forall (fun r' => range_passes r' point = false) pre ->
      range_passes r point = true ->
      doOne f point temp kdi = doOneNoDomain f point temp kdi) /\
  (m_domain f <> [] ->
   Forall (fun r' => range_passes r' point = false) (m_domain f) ->
   doOne f point temp kdi = Done point).
Proof.
  intros Hprep. split.
  - unfold prepared in Hprep.
    destruct (resolve_domain layout (m_domain f0)) as [dom|e]; [|discriminate].
    injection Hprep as <-. simpl. apply StronglySorted_merge_sort; apply _.
  - split; [|split].
    + intros Hempty. unfold doOne. rewrite Hempty. simpl.
      destruct (doOneNoDomain f point temp kdi); reflexivity.
    + intros pre r post Hdom Hpre Hr. unfold doOne. rewrite Hdom.
      destruct pre as [|r0 pre]; simpl app; cbv beta iota;
        change (mbind ?k (Done ?a)) with (k a); cbv beta.
      * apply (doOne_ranges_first f [] r post); [constructor|exact Hr].
      * apply (doOne_ranges_first f (r0 :: pre) r post); assumption.
    + intros Hne Hall. unfold doOne.
      destruct (m_domain f) as [|r0 dom] eqn:E; [congruence|].
      change (mbind ?k (Done ?a)) with (k a); cbv beta.
      apply doOne_ranges_none. exact Hall.
Qed.

Lemma knn_domain_first_match_witness :
  let f0 := with_domain (create [] 3 "") [range_5_6; range_rn_1] in
  let f := with_domain f0 [with_id range_rn_1 Dimension.ReturnNumber;
                           with_id range_5_6 Dimension.Classification] in
  let temp := [cls 0 5; cls 2 7; cls 4 7] in
  let point := cls 0 5 in
  let kdi := KD3Index.build temp in
  StronglySorted range_le (m_domain f) /\
  (m_domain f = [] -> doOne f point temp kdi = doOneNoDomain f point temp kdi) /\
  (forall pre r post,
      m_domain f = pre ++ r :: post ->
      Forall (fun r' => range_passes r' point = false) pre ->
      range_passes r point = true ->
      doOne f point temp kdi = doOneNoDomain f point temp kdi) /\
  (m_domain f <> [] ->
   Forall (fun r' => range_passes r' point = false) (m_domain f) ->
   doOne f point temp kdi = Done point).
Proof.
  apply (knn_domain_first_match las_layout
           (with_domain (create [] 3 "") [range_5_6; range_rn_1])).
  vm_compute. reflexivity.
Defined.

(** The example of the specification: with the domain Classification[5,6)
    a point of class 1 is left alone although its neighbours vote 7,
    while a point of class 5 among the same neighbours becomes 7. *)
Example knn_domain_example :
  let f := with_domain (create [] 3 "") [with_id range_5_6 Dimension.Classification] in
  let temp := [cls 0 7; cls 2 7; cls 4 7] in
  let kdi := KD3Index.build temp in
  doOne f (cls 1 1) temp kdi = Done (cls 1 1) /\
  doOne f (cls 1 5) temp kdi = Done (cls 1 7).
Proof. split; reflexivity. Qed.

(** Candidate mode: the loop of [filter] is one independent evaluation
    per point. *)
Lemma filter_step_cand_middle f candView kdi (done : PointView) p todo :
  filter_step_cand f candView kdi (done ++ p :: todo) (length done) =
  (p' ← doOne f p candView kdi; Done (done ++ p' :: todo)).
Proof.
  unfold filter_step_cand.
  rewrite list_lookup_middle by reflexivity. simpl.
  destruct (doOne f p candView kdi) as [p'| |]; simpl; [|reflexivity|reflexivity].
  rewrite insert_app_r_alt by lia. rewrite Nat.sub_diag. reflexivity.
Qed.

Lemma filter_cand_map f candView kdi (todo : PointView) : forall done : PointView,
  ofold (filter_step_cand f candView kdi) (done ++ todo) (seq (length done) (length todo)) =
  (bs ← omap_list (fun point => doOne f point candView kdi) todo; Done (done ++ bs)).
Proof.
  induction todo as [|p todo IH]; intros done; simpl.
  - reflexivity.
  - rewrite filter_step_cand_middle.
    destruct (doOne f p candView kdi) as [p'| |]; simpl; [|reflexivity|reflexivity].
    replace (done ++ p' :: todo) with ((done ++ [p']) ++ todo)
      by (rewrite <- app_assoc; reflexivity).
    replace (S (length done)) with (length (done ++ [p']))
      by (rewrite length_app; simpl; lia).
    rewrite IH.
    destruct (omap_list (fun point => doOne f point candView kdi) todo); simpl;
      [|reflexivity|reflexivity].
    rewrite <- app_assoc. reflexivity.
Qed.

(** C5 (as amended). When the neighbours come from a candidate view, the
    result of [filter] is the map of the per-point vote over the view as
    it was before the loop: no point's result depends on another point of
    the view. *)
Theorem knn_candidate_snapshot (loadSet : string -> PointView) (f : t) (view : PointView) :
  m_candidateFile f <> ""%string ->
  let candView := loadSet (m_candidateFile f) in
  filter loadSet f view =
  omap_list (fun point => doOne f point candView (KD3Index.build candView)) view.
Proof.
  intros Hcand candView. unfold filter.
  destruct (String.eqb_spec (m_candidateFile f) "") as [E|_]; [congruence|].
  fold candView.
  pose proof (filter_cand_map f candView (KD3Index.build candView) view []) as H.
  simpl in H. rewrite H.
  destruct (omap_list _ view); reflexivity.
Qed.

Lemma knn_candidate_snapshot_witness :
  let loadSet := fun _ : string => [cls 0 7; cls 2 7; cls 4 1] in
  let f := create [] 3 "candidate.las" in
  let view := [cls 1 1; cls 3 7] in
  let candView := loadSet (m_candidateFile f) in
  filter loadSet f view =
  omap_list (fun point => doOne f point candView (KD3Index.build candView)) view.
Proof.
  apply (knn_candidate_snapshot (fun _ : string => [cls 0 7; cls 2 7; cls 4 1])
           (create [] 3 "candidate.las") [cls 1 1; cls 3 7]).
  discriminate.
Defined.

(** C5 as stated fails when the view is its own reference: the votes are
    read from the view while it is being rewritten, and the points 3 and 4
    end differently from the per-point map over the initial view. *)
Lemma knn_self_snapshot_counterexample :
  let f := create [] 3 "" in
  let view := [cls 0 1; cls 2 2; cls 4 2; cls (-5) 1; cls (-11) 2] in
  filter (fun _ => []) f view =
    Done [cls 0 2; cls 2 2; cls 4 2; cls (-5) 2; cls (-11) 2] /\
  omap_list (fun point => doOne f point view (KD3Index.build view)) view =
    Done [cls 0 2; cls 2 2; cls 4 2; cls (-5) 1; cls (-11) 1] /\
  filter (fun _ => []) f view <>
    omap_list (fun point => doOne f point view (KD3Index.build view)) view.
Proof.
  split; [reflexivity|]. split; [reflexivity|].
  vm_compute. intros H. discriminate H.
Qed.

End KNN.

Section Configuration.
Import KNNAssignFilter.
Variable parse : string -> string + DimRange.

Lemma parse_domain_error specs : forall dom r what,
  r ∈ specs -> parse r = inl what ->
  exists e, parse_domain parse specs dom = Error e.
Proof.
  induction specs as [|s specs IH]; intros dom r what Hin Hbad.
  - inversion Hin.
  - simpl. destruct (parse s) as [what'|range] eqn:E.
    + eexists. reflexivity.
    + apply elem_of_cons in Hin as [->|Hin]; [congruence|].
      eapply IH; eassumption.
Qed.

Lemma parse_domain_ok specs : forall dom dom' r range,
  parse_domain parse specs dom = Ok dom' ->
  r ∈ specs -> parse r = inr range -> range ∈ dom'.
Proof.
  assert (Hkeep : forall specs dom dom' x,
             parse_domain parse specs dom = Ok dom' -> x ∈ dom -> x ∈ dom').
  { clear. induction specs as [|s specs IH]; intros dom dom' x H Hin; simpl in H.
    - injection H as <-. exact Hin.
    - destruct (parse s) as [|range]; [discriminate|].
      eapply IH; [exact H|]. apply elem_of_app. left. exact Hin. }
  induction specs as [|s specs IH]; intros dom dom' r range H Hin Hr.
  - inversion Hin.
  - simpl in H. destruct (parse s) as [|range'] eqn:E; [discriminate|].
    apply elem_of_cons in Hin as [->|Hin].
    + assert (range' = range) as -> by congruence.
      eapply Hkeep; [exact H|]. apply elem_of_app. right. left.
    + eapply IH; eassumption.
Qed.

Lemma resolve_domain_error layout dom : forall r,
  r ∈ dom -> findDim layout (m_name r) = Dimension.Unknown ->
  exists e, resolve_domain layout dom = Error e.
Proof.
  induction dom as [|r0 dom IH]; intros r Hin Hbad.
  - inversion Hin.
  - simpl. destruct (Dimension.eqb (findDim layout (m_name r0)) Dimension.Unknown) eqn:E.
    + eexists. reflexivity.
    + apply elem_of_cons in Hin as [->|Hin].
      * rewrite Hbad in E. discriminate E.
      * destruct (IH r Hin Hbad) as [e ->]. eexists. reflexivity.
Qed.

(** C9. When a domain text does not parse, or k < 1, or the name of a
    parsed range is not in the layout, the stage ends in an error before
    [filter] runs, and the view is as it was. *)
Theorem knn_configuration_errors
    (loadSet : string -> PointView)
    (domain : list string) (k : Z) (candidate : string)
    (layout : PointLayout) (view : PointView) :
  (exists r what, r ∈ domain /\ parse r = inl what) \/
  (k < 1)%Z \/
  (exists r range, r ∈ domain /\ parse r = inr range /\
                   findDim layout (m_name range) = Dimension.Unknown) ->
  exists e,
    execute parse loadSet (create domain k candidate) layout view = (Error e, Done view).
Proof.
  intros Hbad. unfold execute, initialize. simpl.
  destruct (parse_domain parse domain []) as [dom|e] eqn:Eparse; [|eexists; reflexivity].
  destruct (Z.ltb_spec k 1) as [Hk|Hk]; [eexists; reflexivity|].
  unfold prepared. simpl.
  destruct (resolve_domain layout dom) as [dom'|e] eqn:Eres; [|eexists; reflexivity].
  exfalso. destruct Hbad as [(r & what & Hin & Hr)|[Hlt|(r & range & Hin & Hr & Hdim)]].
  - destruct (parse_domain_error domain [] r what Hin Hr) as [e He]. congruence.
  - lia.
  - pose proof (parse_domain_ok domain [] dom r range Eparse Hin Hr) as Hrange.
    destruct (resolve_domain_error layout dom range Hrange Hdim) as [e He]. congruence.
Qed.
End Configuration.

Lemma knn_configuration_errors_witness :
  exists e,
    KNNAssignFilter.execute parse_one (fun _ => [])
      (KNNAssignFilter.create ["Classification[5:6)"; "Classification(5"]%string 3 "")
      las_layout [cls 0 1; cls 2 7; cls 4 7] =
    (Error e, Done [cls 0 1; cls 2 7; cls 4 7]).
Proof.
  apply (knn_configuration_errors parse_one (fun _ => [])
           ["Classification[5:6)"; "Classification(5"]%string 3 ""
           las_layout [cls 0 1; cls 2 7; cls 4 7]).
  left. exists "Classification(5"%string, "Unable to parse range."%string.
  split; [|reflexivity]. right. left.
Defined.

(** ** filters.pmf: the configuration, the raster, the cell indices *)

Section PMF.
Import PMFFilter.

(** C4 (as amended). [prepared] raises no error whatever the cell size
    is: it always succeeds and leaves the cell size as configured. *)
Theorem pmf_prepared_accepts_any_cell_size (layout : PointLayout) (f : t) :
  exists f' log, prepared layout f = Ok (f', log) /\ m_cellSize f' = m_cellSize f.
Proof.
  unfold prepared.
  destruct (m_lastOnly f);
    [destruct (negb (hasDim layout Dimension.ReturnNumber)
               || negb (hasDim layout Dimension.NumberOfReturns))|];
    eexists; eexists; (split; [reflexivity|reflexivity]).
Qed.

(** With a cell size of 0 nothing stops the stage before the first
    division: the raster size is the conversion of a quotient by zero. *)
Lemma pmf_zero_cell_size_undefined
    (erodeDiamond dilateDiamond : list Q -> nat -> nat -> Z -> list Q)
    (fuel : nat) (f : t) (table : PointTable) (view : PointViewPtr) :
  m_cellSize f == 0 ->
  processGround erodeDiamond dilateDiamond fuel f table view = Undefined.
Proof.
  intros Hzero. unfold processGround.
  destruct (calculateBounds table view) as [bounds|]; [|reflexivity].
  cbn [of_option]. unfold grid_size, fdiv.
  apply Qeq_bool_iff in Hzero. rewrite Hzero. reflexivity.
Qed.

(** C4 as stated fails: a cell size of 0 passes [prepared]. *)
Lemma pmf_cell_size_counterexample :
  ~ (forall (layout : PointLayout) (f : t),
       m_cellSize f <= 0 -> exists e, prepared layout f = Error e).
Proof.
  intros H.
  destruct (H las_layout (mk 0 true no_range (15 # 100) true (25 # 10) 33 1)) as [e He].
  - apply Qle_refl.
  - vm_compute in He. discriminate He.
Qed.

Lemma Qtrunc_nonneg q : 0 <= q -> Qtrunc q = Qfloor q.
Proof.
  destruct q as [n d]. unfold Qle, Qtrunc, Qfloor. simpl. intros H.
  apply Z.quot_div_nonneg; lia.
Qed.

Lemma Qfloor_nonneg q : 0 <= q -> (0 <= Qfloor q)%Z.
Proof.
  intros H. change 0%Z with (Qfloor 0). apply Qfloor_resp_le. exact H.
Qed.

Lemma Qfloor_succ q : Qfloor (q + 1) = (Qfloor q + 1)%Z.
Proof.
  destruct q as [n d]. unfold Qfloor, Qplus. simpl.
  rewrite Pos.mul_1_r, Z.mul_1_r.
  rewrite Z.div_add by lia. reflexivity.
Qed.

Lemma Qdiv_nonneg x y : 0 <= x -> 0 < y -> 0 <= x / y.
Proof.
  intros Hx Hy. unfold Qdiv. apply Qmult_le_0_compat; [exact Hx|].
  apply Qlt_le_weak. apply Qinv_lt_0_compat. exact Hy.
Qed.

Lemma Qdiv_le_mono x x' y : x <= x' -> 0 < y -> x / y <= x' / y.
Proof.
  intros Hx Hy. unfold Qdiv. apply Qmult_le_compat_r; [exact Hx|].
  apply Qlt_le_weak. apply Qinv_lt_0_compat. exact Hy.
Qed.

Lemma grid_size_floor f lo hi :
  0 < m_cellSize f -> lo <= hi ->
  grid_size f lo hi = Done (Qfloor ((hi - lo) / m_cellSize f) + 1)%Z.
Proof.
  intros Hc Hle. unfold grid_size, fdiv.
  destruct (Qeq_bool (m_cellSize f) 0) eqn:E.
  { apply Qeq_bool_iff in E. rewrite E in Hc. exfalso. apply (Qlt_irrefl _ Hc). }
  simpl. unfold to_size_t.
  assert (Hq : 0 <= (hi - lo) / m_cellSize f).
  { apply Qdiv_nonneg; [|exact Hc]. lra. }
  destruct (Qle_bool ((hi - lo) / m_cellSize f + 1) (-1)) eqn:E1.
  { apply Qle_bool_iff in E1. exfalso. lra. }
  rewrite Qtrunc_nonneg by lra. rewrite Qfloor_succ. reflexivity.
Qed.

Lemma grow_ordered b p :
  minx b <= maxx b -> miny b <= maxy b ->
  minx (grow b p) <= maxx (grow b p) /\ miny (grow b p) <= maxy (grow b p).
Proof.
  intros Hx Hy. unfold grow. simpl. split.
  - eapply Qle_trans; [apply Q.le_min_l|]. eapply Qle_trans; [exact Hx|]. apply Q.le_max_l.
  - eapply Qle_trans; [apply Q.le_min_l|]. eapply Qle_trans; [exact Hy|]. apply Q.le_max_l.
Qed.

Lemma calculateBounds_ordered (table : PointTable) (view : PointViewPtr) b :
  calculateBounds table view = Some b -> minx b <= maxx b /\ miny b <= maxy b.
Proof.
  destruct view as [|idx view]; simpl; [discriminate|].
  intros H. injection H as <-.
  set (b0 := mkBOX2D _ _ _ _).
  assert (H0 : minx b0 <= maxx b0 /\ miny b0 <= maxy b0).
  { unfold b0. simpl. split; apply Qle_refl. }
  clearbody b0. revert b0 H0.
  induction view as [|idx' view IH]; intros b0 H0; simpl; [exact H0|].
  apply IH. destruct H0. apply grow_ordered; assumption.
Qed.




Lemma bin_cell_range f lo hi x n :
  0 < m_cellSize f -> lo <= x -> x <= hi ->
  grid_size f lo hi = Done n ->
  (0 <= Qtrunc (inject_Z (Qfloor (x - lo)) / m_cellSize f) < n)%Z.
Proof.
  intros Hc Hlo Hhi Hn.
  rewrite grid_size_floor in Hn by (try assumption; lra).
  assert (Hn' : n = (Qfloor ((hi - lo) / m_cellSize f) + 1)%Z) by congruence.
  subst n. clear Hn.
  assert (Hf : (0 <= Qfloor (x - lo))%Z) by (apply Qfloor_nonneg; lra).
  assert (Hq : 0 <= inject_Z (Qfloor (x - lo)) / m_cellSize f).
  { apply Qdiv_nonneg; [|exact Hc]. change 0 with (inject_Z 0). rewrite <- Zle_Qle. exact Hf. }
  rewrite Qtrunc_nonneg by exact Hq. split; [apply Qfloor_nonneg; exact Hq|].
  assert (Hle : inject_Z (Qfloor (x - lo)) / m_cellSize f <= (hi - lo) / m_cellSize f).
  { apply Qdiv_le_mono; [|exact Hc].
    eapply Qle_trans; [apply Qfloor_le|]. lra. }
  apply Qfloor_resp_le in Hle. lia.
Qed.

Lemma filter_cell_range f lo hi x n :
  0 < m_cellSize f -> lo <= x -> x <= hi ->
  grid_size f lo hi = Done n ->
  (0 <= Qfloor ((x - lo) / m_cellSize f) < n)%Z.
Proof.
  intros Hc Hlo Hhi Hn.
  rewrite grid_size_floor in Hn by (try assumption; lra).
  assert (Hn' : n = (Qfloor ((hi - lo) / m_cellSize f) + 1)%Z) by congruence.
  subst n. clear Hn.
  split.
  - apply Qfloor_nonneg. apply Qdiv_nonneg; [lra|exact Hc].
  - assert (Hle : (x - lo) / m_cellSize f <= (hi - lo) / m_cellSize f).
    { apply Qdiv_le_mono; [lra|exact Hc]. }
    apply Qfloor_resp_le in Hle. lia.
Qed.

(** Both cell indices of a point inside the bounds are inside the
    raster. *)
Lemma pmf_cell_indices_in_bounds f bounds rows cols x y :
  0 < m_cellSize f ->
  minx bounds <= x <= maxx bounds ->
  miny bounds <= y <= maxy bounds ->
  grid_size f (minx bounds) (maxx bounds) = Done cols ->
  grid_size f (miny bounds) (maxy bounds) = Done rows ->
  (0 <= bin_index f bounds rows x y < rows * cols)%Z /\
  (0 <= filter_index f bounds rows x y < rows * cols)%Z.
Proof.
  intros Hc [Hx1 Hx2] [Hy1 Hy2] Hcols Hrows.
  pose proof (bin_cell_range f _ _ x cols Hc Hx1 Hx2 Hcols) as Hbc.
  pose proof (bin_cell_range f _ _ y rows Hc Hy1 Hy2 Hrows) as Hbr.
  pose proof (filter_cell_range f _ _ x cols Hc Hx1 Hx2 Hcols) as Hfc.
  pose proof (filter_cell_range f _ _ y rows Hc Hy1 Hy2 Hrows) as Hfr.
  unfold bin_index, filter_index. split; nia.
Qed.

(** C10. The two cell indices of one point differ: with cell size 1/2
    the point at x = 3/4 (0.75 from minx) is binned into cell 0,
    int(floor(0.75) / 0.5), and compared with cell 1,
    int(floor(0.75 / 0.5)), of a raster of 2 columns and 1 row. *)
Theorem pmf_bin_filter_index_mismatch :
  let f := mk (1 # 2) true no_range (15 # 100) true (25 # 10) 33 1 in
  let table := [xyz 0 0 0; xyz (3 # 4) 0 5] in
  let view := [0; 1]%nat in
  let bounds := mkBOX2D 0 (3 # 4) 0 0 in
  0 < m_cellSize f /\
  calculateBounds table view = Some bounds /\
  grid_size f (minx bounds) (maxx bounds) = Done 2%Z /\
  grid_size f (miny bounds) (maxy bounds) = Done 1%Z /\
  bin_index f bounds 1 (3 # 4) 0 = 0%Z /\
  filter_index f bounds 1 (3 # 4) 0 = 1%Z.
Proof.
  repeat split.
Qed.
End PMF.

(** ** filters.pmf: the series of window sizes and height thresholds *)

Section Scales.
Import PMFFilter.
Variable f : t.
Hypothesis cell_pos : 0 < m_cellSize f.

Lemma pow2_Q_pos (i : nat) : 1 <= inject_Z (2 ^ Z.of_nat i).
Proof.
  change 1 with (inject_Z 1). rewrite <- Zle_Qle.
  pose proof (Z.pow_pos_nonneg 2 (Z.of_nat i)). lia.
Qed.




Lemma window_size_factor i : window_size f i = m_cellSize f * window_factor f i.
Proof. unfold window_size, window_factor. destruct (m_exponential f); reflexivity. Qed.









End Scales.




Example pmf_scales_defaults :
  PMFFilter.scales 5 PMFFilter.defaults 0 0 [] [] =
  Done ([3; 5; 9; 17; 33], [15 # 100; 215 # 100; 25 # 10; 25 # 10; 25 # 10]).
Proof. reflexivity. Qed.


(** ** filters.pmf: [processGround] runs to its end *)

Lemma bind_Done_l {A B} (a : A) (k : A -> outcome B) : Done a ≫= k = k a.
Proof. reflexivity. Qed.

Section Total.
Import PMFFilter.

Lemma grow_in_box b p q : in_box b q -> in_box (grow b p) q.
Proof.
  unfold in_box, grow. simpl. intros [[H1 H2] [H3 H4]].
  pose proof (Q.le_min_l (minx b) (pt_X p)). pose proof (Q.le_max_l (maxx b) (pt_X p)).
  pose proof (Q.le_min_l (miny b) (pt_Y p)). pose proof (Q.le_max_l (maxy b) (pt_Y p)).
  repeat split; lra.
Qed.

Lemma grow_in_box_self b p : in_box (grow b p) p.
Proof.
  unfold in_box, grow. simpl.
  pose proof (Q.le_min_r (minx b) (pt_X p)). pose proof (Q.le_max_r (maxx b) (pt_X p)).
  pose proof (Q.le_min_r (miny b) (pt_Y p)). pose proof (Q.le_max_r (maxy b) (pt_Y p)).
  repeat split; assumption.
Qed.

Lemma foldl_grow_in_box (table : PointTable) (view : PointViewPtr) : forall b q,
  in_box b q \/ (exists idx, idx ∈ view /\ q = table !!! idx) ->
  in_box (foldl (fun b idx' => grow b (table !!! idx')) b view) q.
Proof.
  induction view as [|idx view IH]; intros b q H; simpl.
  - destruct H as [H|(idx & Hin & _)]; [exact H|inversion Hin].
  - apply IH. destruct H as [H|(idx' & Hin & ->)].
    + left. apply grow_in_box. exact H.
    + apply elem_of_cons in Hin as [->|Hin].
      * left. apply grow_in_box_self.
      * right. exists idx'. split; [exact Hin|reflexivity].
Qed.

Lemma calculateBounds_contains (table : PointTable) (view : PointViewPtr) b idx :
  calculateBounds table view = Some b -> idx ∈ view -> in_box b (table !!! idx).
Proof.
  destruct view as [|idx0 view]; simpl; [discriminate|].
  intros H Hin. injection H as <-. apply foldl_grow_in_box.
  apply elem_of_cons in Hin as [->|Hin].
  - left. unfold in_box. simpl. repeat split; apply Qle_refl.
  - right. exists idx. split; [exact Hin|reflexivity].
Qed.

Lemma vec_at_Done {A} (v : list A) (idx : Z) :
  (0 <= idx < Z.of_nat (length v))%Z -> exists a, vec_at v idx = Done a /\ v !! Z.to_nat idx = Some a.
Proof.
  intros H. unfold vec_at. destruct (Z.ltb_spec idx 0); [lia|].
  destruct (lookup_lt_is_Some_2 v (Z.to_nat idx)) as [a Ha]; [lia|].
  exists a. rewrite Ha. split; reflexivity.
Qed.

Lemma bin_point_Done f (table : PointTable) bounds rows cols ZImin idx_p :
  0 < m_cellSize f ->
  grid_size f (minx bounds) (maxx bounds) = Done cols ->
  grid_size f (miny bounds) (maxy bounds) = Done rows ->
  in_box bounds (table !!! idx_p) ->
  length ZImin = Z.to_nat (rows * cols) ->
  exists ZImin',
    bin_point f table bounds rows ZImin idx_p = Done ZImin' /\
    length ZImin' = length ZImin /\ populated ZImin'.
Proof.
  intros Hc Hcols Hrows [Hx Hy] Hlen. unfold bin_point.
  destruct (pmf_cell_indices_in_bounds f bounds rows cols
              (pt_X (table !!! idx_p)) (pt_Y (table !!! idx_p)) Hc Hx Hy Hcols Hrows)
    as [Hidx _].
  set (idx := bin_index f bounds rows (pt_X (table !!! idx_p)) (pt_Y (table !!! idx_p))) in *.
  destruct (vec_at_Done ZImin idx) as (cell & -> & Hcell); [lia|]. simpl.
  assert (Hnew : populated (<[Z.to_nat idx := Some (pt_Z (table !!! idx_p))]> ZImin)).
  { exists (Z.to_nat idx), (pt_Z (table !!! idx_p)).
    apply list_lookup_insert_eq. lia. }
  destruct cell as [z0|].
  - destruct (Qltb (pt_Z (table !!! idx_p)) z0).
    + eexists. split; [reflexivity|]. split; [apply length_insert|exact Hnew].
    + eexists. split; [reflexivity|]. split; [reflexivity|].
      exists (Z.to_nat idx), z0. exact Hcell.
  - eexists. split; [reflexivity|]. split; [apply length_insert|exact Hnew].
Qed.

Lemma bin_points_Done f (table : PointTable) bounds rows cols (view : PointViewPtr) :
  0 < m_cellSize f ->
  grid_size f (minx bounds) (maxx bounds) = Done cols ->
  grid_size f (miny bounds) (maxy bounds) = Done rows ->
  (forall idx, idx ∈ view -> in_box bounds (table !!! idx)) ->
  forall ZImin,
  length ZImin = Z.to_nat (rows * cols) ->
  exists ZImin',
    ofold (bin_point f table bounds rows) ZImin view = Done ZImin' /\
    length ZImin' = Z.to_nat (rows * cols) /\
    (view <> [] \/ populated ZImin -> populated ZImin').
Proof.
  intros Hc Hcols Hrows. induction view as [|idx view IH]; intros Hbox ZImin Hlen; simpl.
  - exists ZImin. split; [reflexivity|]. split; [exact Hlen|].
    intros [H|H]; [congruence|exact H].
  - destruct (bin_point_Done f table bounds rows cols ZImin idx Hc Hcols Hrows)
      as (Z1 & -> & Hlen1 & Hpop1); [apply Hbox; left|exact Hlen|]. simpl.
    destruct (IH (fun i Hi => Hbox i (list_elem_of_further _ _ _ Hi)) Z1) as (Z2 & -> & Hlen2 & Hpop2);
      [congruence|].
    exists Z2. split; [reflexivity|]. split; [exact Hlen2|].
    intros _. apply Hpop2. right. exact Hpop1.
Qed.

Lemma elem_of_cells rows cols c r :
  (c, r) ∈ cells rows cols <-> (c < cols)%nat /\ (r < rows)%nat.
Proof.
  unfold cells. rewrite list_elem_of_bind. split.
  - intros (c' & Hin & Hc). apply list_elem_of_bind in Hin as (r' & Hin & Hr).
    apply list_elem_of_singleton in Hin. injection Hin as -> ->.
    apply elem_of_seq in Hc, Hr. lia.
  - intros [Hc Hr]. exists c. split; [|apply elem_of_seq; lia].
    apply list_elem_of_bind. exists r. split; [left|apply elem_of_seq; lia].
Qed.

Lemma length_list_bind {A B} (g : A -> list B) (n : nat) (l : list A) :
  (forall a, length (g a) = n) -> length (l ≫= g) = (length l * n)%nat.
Proof.
  intros Hg. induction l as [|a l IH]; [reflexivity|].
  rewrite bind_cons, length_app, IH, Hg. reflexivity.
Qed.

Lemma length_cells rows cols : length (cells rows cols) = (cols * rows)%nat.
Proof.
  unfold cells. rewrite (length_list_bind _ rows).
  - rewrite length_seq. reflexivity.
  - intros c. rewrite (length_list_bind _ 1%nat).
    + rewrite length_seq. lia.
    + intros r. reflexivity.
Qed.

Lemma omap_list_Done {A B} (g : A -> outcome B) (l : list A) :
  (forall a, a ∈ l -> exists b, g a = Done b) ->
  exists bs, omap_list g l = Done bs /\ length bs = length l.
Proof.
  induction l as [|a l IH]; intros H; simpl.
  - exists []. split; reflexivity.
  - destruct (H a) as [b ->]; [left|]. simpl.
    destruct IH as (bs & -> & Hlen); [intros a' Ha'; apply H; right; exact Ha'|].
    simpl. exists (b :: bs). split; [reflexivity|simpl; congruence].
Qed.

Lemma populated_cells_nonempty f bounds rows cols ZImin :
  length ZImin = (cols * rows)%nat -> populated ZImin ->
  populated_cells f bounds rows cols ZImin <> [].
Proof.
  intros Hlen (i & z & Hi) Hnil.
  assert (Hlt : (i < cols * rows)%nat) by (rewrite <- Hlen; eapply lookup_lt_Some; exact Hi).
  assert (Hrows : (0 < rows)%nat) by (destruct rows; [lia|lia]).
  assert (Hin : (cell_x f bounds (i / rows), cell_y f bounds (i mod rows), z)
                ∈ populated_cells f bounds rows cols ZImin).
  { unfold populated_cells. apply list_elem_of_bind. exists (i / rows, i mod rows)%nat.
    split.
    - replace (i / rows * rows + i mod rows)%nat with i.
      + rewrite Hi. left.
      + rewrite (Nat.div_mod_eq i rows) at 1. lia.
    - apply elem_of_cells. split.
      + apply Nat.Div0.div_lt_upper_bound. lia.
      + apply Nat.mod_upper_bound. lia. }
  rewrite Hnil in Hin. inversion Hin.
Qed.

Lemma nearest_one_valid {A} (dist : A -> Q) (pts : list A) :
  pts <> [] -> (hd 0%nat (nearest dist pts 1) < length pts)%nat.
Proof.
  intros Hne. pose proof (nearest_valid dist pts 1) as Hv.
  pose proof (nearest_length dist pts 1) as Hl.
  destruct (nearest dist pts 1) as [|id ids].
  - simpl in Hl. destruct pts; [congruence|simpl in Hl; lia].
  - inversion Hv; subst. simpl. assumption.
Qed.

Lemma fill_gaps_Done f bounds rows cols ZImin :
  length ZImin = (cols * rows)%nat -> populated ZImin ->
  let temp := populated_cells f bounds rows cols ZImin in
  exists surface,
    fill_gaps f bounds rows cols ZImin temp (KD2Index.build temp) = Done surface /\
    length surface = (cols * rows)%nat.
Proof.
  intros Hlen Hpop temp.
  assert (Hne : temp <> []) by (apply populated_cells_nonempty; assumption).
  unfold fill_gaps. rewrite <- (length_cells rows cols).
  apply omap_list_Done. intros [c r] Hin. apply elem_of_cells in Hin as [Hc Hr].
  destruct (lookup_lt_is_Some_2 ZImin (c * rows + r)) as [cell Hcell]; [nia|].
  rewrite Hcell. simpl. destruct cell as [z|]; [eexists; reflexivity|].
  set (nb := hd 0%nat _).
  destruct (lookup_lt_is_Some_2 temp nb) as [nn Hnn].
  { unfold nb, KD2Index.knnSearch, KD2Index.build. simpl.
    pose proof (nearest_one_valid
                  (KD2Index.sqdist (cell_x f bounds c) (cell_y f bounds r))
                  (map (fun c0 : Q * Q * Q => (c0.1.1, c0.1.2)) temp)) as Hv.
    rewrite length_map in Hv. apply Hv. intros E. apply Hne.
    destruct temp; [reflexivity|discriminate]. }
  rewrite Hnn. simpl. eexists. reflexivity.
Qed.

Variable erodeDiamond dilateDiamond : list Q -> nat -> nat -> Z -> list Q.

Hypothesis erode_size : keeps_size erodeDiamond.
Hypothesis dilate_size : keeps_size dilateDiamond.

Lemma grid_size_pos f lo hi n :
  0 < m_cellSize f -> lo <= hi -> grid_size f lo hi = Done n -> (1 <= n)%Z.
Proof.
  intros Hc Hle Hn. rewrite grid_size_floor in Hn by assumption.
  assert (Hn' : n = (Qfloor ((hi - lo) / m_cellSize f) + 1)%Z) by congruence.
  subst n. assert (0 <= Qfloor ((hi - lo) / m_cellSize f))%Z; [|lia].
  apply Qfloor_nonneg. apply Qdiv_nonneg; [lra|exact Hc].
Qed.



End Total.

Lemma eigen_morph_size pick : keeps_size (eigen.morph pick).
Proof.
  intros data rows cols iters _. unfold eigen.morph.
  rewrite (length_list_bind _ 1%nat).
  - rewrite length_cells. lia.
  - intros [c r]. reflexivity.
Qed.

(** ** filters.pmf: what [run] leaves of the points it sets aside *)

Lemma bind_Done {A B} (m : outcome A) (k : A -> outcome B) b :
  m ≫= k = Done b -> exists a, m = Done a /\ k a = Done b.
Proof.
  destruct m as [a| |]; simpl; intros H; [|discriminate|discriminate].
  exists a. split; [reflexivity|exact H].
Qed.

Section Frame.
Import PMFFilter.

Lemma view_setField_lookup (view : PointViewPtr) dim i v (table : PointTable) idx :
  view_setField view dim i v table !! idx =
  if bool_decide (view !! i = Some idx) then setField dim v <$> table !! idx
  else table !! idx.
Proof.
  unfold view_setField. case_bool_decide as E.
  - rewrite E. apply list_lookup_alter_eq.
  - destruct (view !! i) as [idx'|]; [|reflexivity].
    apply list_lookup_alter_ne. congruence.
Qed.

Lemma setField_idem dim v p : setField dim v (setField dim v p) = setField dim v p.
Proof. destruct dim; reflexivity. Qed.

(** A run of [setField] through a view writes the points the view holds
    at the identifiers written, and no other. *)
Lemma foldl_view_setField_lookup (view : PointViewPtr) dim v idx (ids : list PointId) :
  forall table : PointTable,
  foldl (fun table i => view_setField view dim i v table) table ids !! idx =
  if existsb (fun i => bool_decide (view !! i = Some idx)) ids
  then setField dim v <$> table !! idx
  else table !! idx.
Proof.
  induction ids as [|i ids IH]; intros table; simpl; [reflexivity|].
  rewrite IH, view_setField_lookup.
  destruct (bool_decide (view !! i = Some idx)); simpl; [|reflexivity].
  destruct (existsb _ ids); [|reflexivity].
  destruct (table !! idx); simpl; [|reflexivity].
  rewrite setField_idem. reflexivity.
Qed.

Lemma foldl_view_setField_other (view : PointViewPtr) dim v idx (ids : list PointId)
    (table : PointTable) :
  idx ∉ view ->
  foldl (fun table i => view_setField view dim i v table) table ids !! idx = table !! idx.
Proof.
  intros Hnot. rewrite foldl_view_setField_lookup.
  destruct (existsb _ ids) eqn:E; [|reflexivity].
  apply existsb_exists in E as (i & _ & Hi). apply bool_decide_eq_true in Hi.
  exfalso. apply Hnot. eapply list_elem_of_lookup_2. exact Hi.
Qed.

Lemma classify_kept_in (keptView : PointViewPtr) (table : PointTable) idx :
  idx ∈ keptView ->
  classify_kept keptView table !! idx =
  setField Dimension.Classification 1 <$> table !! idx.
Proof.
  intros Hin. unfold classify_kept. rewrite foldl_view_setField_lookup.
  destruct (existsb _ _) eqn:E; [reflexivity|].
  apply list_elem_of_lookup_1 in Hin as [i Hi].
  assert (Hex : existsb (fun i => bool_decide (keptView !! i = Some idx))
                        (seq 0 (length keptView)) = true).
  { apply existsb_exists. exists i. split.
    - apply in_seq. apply lookup_lt_Some in Hi. lia.
    - apply bool_decide_eq_true. exact Hi. }
  congruence.
Qed.

Lemma classify_kept_other (keptView : PointViewPtr) (table : PointTable) idx :
  idx ∉ keptView -> classify_kept keptView table !! idx = table !! idx.
Proof. apply foldl_view_setField_other. Qed.

Variable isLast : Point -> bool.
Variable erodeDiamond dilateDiamond : list Q -> nat -> nat -> Z -> list Q.




Lemma segment_last_subset f (table : PointTable) (keptView : PointViewPtr) idx :
  idx ∈ (segment_last isLast f table keptView).1 -> idx ∈ keptView.
Proof.
  unfold segment_last. destruct (m_lastOnly f); simpl.
  - rewrite !list_elem_of_In, !filter_In. intros [Hin _]. exact Hin.
  - intros H. exact H.
Qed.

End Frame.



(** ** The KNN filter as a whole *)

Section MoreKNN.
Import KNNAssignFilter.

Lemma getFieldAs_setField_ne d d' v p :
  d' <> d -> getFieldAs d' (setField d v p) = getFieldAs d' p.
Proof. destruct d, d'; simpl; congruence. Qed.

Lemma getFieldAs_setField_eq d v p :
  d <> Dimension.Unknown -> getFieldAs d (setField d v p) = v.
Proof. destruct d; simpl; congruence. Qed.

Lemma same_but_refl d p : same_but d p p.
Proof. intros d' _. reflexivity. Qed.

Lemma same_but_trans d p1 p2 p3 :
  same_but d p1 p2 -> same_but d p2 p3 -> same_but d p1 p3.
Proof. intros H12 H23 d' Hd. rewrite H23, H12 by exact Hd. reflexivity. Qed.

Lemma same_but_setField d v p : same_but d p (setField d v p).
Proof. intros d' Hd. apply getFieldAs_setField_ne. exact Hd. Qed.

(** What [doOneNoDomain] returns is the point or the point with a new
    value on the voting dimension. *)
Lemma doOneNoDomain_writes f point temp kdi point' :
  doOneNoDomain f point temp kdi = Done point' ->
  point' = point \/ exists w, point' = setField (m_dim f) w point.
Proof.
  unfold doOneNoDomain. intros H.
  apply bind_Done in H as (counts & _ & H).
  apply bind_Done in H as (pr & _ & H).
  destruct (_ && _); injection H as <-; [right; eexists; reflexivity|left; reflexivity].
Qed.

Lemma doOne_eligible f point temp kdi :
  doOne f point temp kdi =
  if eligible f point then doOneNoDomain f point temp kdi else Done point.
Proof.
  unfold doOne, eligible. destruct (m_domain f) as [|r dom] eqn:E.
  - simpl. destruct (doOneNoDomain f point temp kdi); reflexivity.
  - rewrite bind_Done_l. apply doOne_ranges_existsb.
Qed.

Lemma doOne_writes f point temp kdi point' :
  doOne f point temp kdi = Done point' -> same_but (m_dim f) point point'.
Proof.
  rewrite doOne_eligible. destruct (eligible f point).
  - intros H. apply doOneNoDomain_writes in H as [->|[w ->]].
    + apply same_but_refl.
    + apply same_but_setField.
  - intros H. injection H as <-. apply same_but_refl.
Qed.

(** A loop of steps that each rewrite one point of the view. *)
Lemma ofold_pointwise (R : Point -> Point -> Prop)
    (step : list Point -> nat -> outcome (list Point)) :
  (forall p, R p p) -> (forall p1 p2 p3, R p1 p2 -> R p2 p3 -> R p1 p3) ->
  (forall view id view', step view id = Done view' ->
     exists p p', view !! id = Some p /\ R p p' /\ view' = <[id := p']> view) ->
  forall ids view0 view view',
    Forall2 R view0 view -> ofold step view ids = Done view' -> Forall2 R view0 view'.
Proof.
  intros Hrefl Htrans Hstep. induction ids as [|id ids IH]; intros view0 view view' H0 H.
  - simpl in H. injection H as <-. exact H0.
  - simpl in H. apply bind_Done in H as (view1 & Hs & H).
    apply (IH view0 view1 view'); [|exact H].
    destruct (Hstep _ _ _ Hs) as (p & p' & Hp & HR & ->).
    apply Forall2_same_length_lookup. split.
    + rewrite length_insert. eapply Forall2_length. exact H0.
    + intros i x y Hx Hy. destruct (decide (i = id)) as [->|Hne].
      * rewrite list_lookup_insert_eq in Hy by (eapply lookup_lt_Some; exact Hp).
        injection Hy as <-. eapply Htrans; [|exact HR].
        eapply Forall2_lookup_lr; eassumption.
      * rewrite list_lookup_insert_ne in Hy by congruence.
        eapply Forall2_lookup_lr; eassumption.
Qed.

Lemma Forall2_same_refl (R : Point -> Point -> Prop) (l : list Point) :
  (forall p, R p p) -> Forall2 R l l.
Proof. intros H. induction l; constructor; auto. Qed.

(** X1. [filter] neither adds nor drops a point, and the only field of
    a point it can change is the voted dimension [m_dim]: every other
    field of every point of the view is as it was. *)
Theorem knn_filter_keeps_points (loadSet : string -> list Point) (f : t)
    (view view' : list Point) :
  filter loadSet f view = Done view' ->
  length view' = length view /\ Forall2 (same_but (m_dim f)) view view'.
Proof.
  intros H.
  assert (HF : Forall2 (same_but (m_dim f)) view view').
  { unfold filter in H. destruct (String.eqb (m_candidateFile f) "").
    - eapply (ofold_pointwise _ _ (same_but_refl _) (same_but_trans _)); [| |exact H].
      + intros v id v' Hs. unfold filter_step_src in Hs.
        apply bind_Done in Hs as (p & Hp & Hs). apply bind_Done in Hs as (p' & Hd & Hs).
        injection Hs as <-. exists p, p'. split; [|split; [|reflexivity]].
        * destruct (v !! id); [simpl in Hp; congruence|discriminate].
        * eapply doOne_writes. exact Hd.
      + apply Forall2_same_refl. apply same_but_refl.
    - eapply (ofold_pointwise _ _ (same_but_refl _) (same_but_trans _)); [| |exact H].
      + intros v id v' Hs. unfold filter_step_cand in Hs.
        apply bind_Done in Hs as (p & Hp & Hs). apply bind_Done in Hs as (p' & Hd & Hs).
        injection Hs as <-. exists p, p'. split; [|split; [|reflexivity]].
        * destruct (v !! id); [simpl in Hp; congruence|discriminate].
        * eapply doOne_writes. exact Hd.
      + apply Forall2_same_refl. apply same_but_refl. }
  split; [symmetry; eapply Forall2_length; exact HF|exact HF].
Qed.

Lemma knn_filter_keeps_points_witness :
  let f := create [] 3 "" in
  let view := [cls 0 1; cls 2 2; cls 4 2; cls (-5) 1; cls (-11) 2] in
  let view' := [cls 0 2; cls 2 2; cls 4 2; cls (-5) 2; cls (-11) 2] in
  length view' = length view /\ Forall2 (same_but (m_dim f)) view view'.
Proof.
  apply (knn_filter_keeps_points (fun _ => []) (create [] 3 "")).
  vm_compute. reflexivity.
Defined.

(** The value [doOneNoDomain] returns, from the winner of the tally. *)
Lemma doOneNoDomain_eval f point temp kdi :
  (1 <= m_k f < 2 ^ 31)%Z -> temp <> [] ->
  length (KD3Index.m_buf kdi) = length temp ->
  let iSrc := KD3Index.neighbors kdi point (m_k f) in
  let votes := votes_of f temp iSrc in
  votes <> [] /\
  exists w c,
    max_element (tally votes) = Some (w, c) /\
    c = count_votes w votes /\ (1 <= c)%Z /\
    (forall v, (count_votes v votes <= c)%Z /\ (count_votes v votes = c -> w <= v)) /\
    doOneNoDomain f point temp kdi =
      Done (if (Z.of_nat (length votes) <? 2 * c)%Z
               && negb (Qeq_bool (getFieldAs (m_dim f) point) w)
            then setField (m_dim f) w point else point).
Proof.
  intros Hk Hne Hlen iSrc votes.
  assert (Hn : Z.of_nat (length iSrc) = Z.min (m_k f) (Z.of_nat (length temp))).
  { unfold iSrc. rewrite neighbors_length by lia. rewrite Hlen. reflexivity. }
  assert (Hvalid : Forall (fun id => (id < length temp)%nat) iSrc).
  { apply neighbors_valid. exact Hlen. }
  assert (Hlv : length votes = length iSrc) by apply length_map.
  assert (Hvne : votes <> []).
  { intros E. rewrite E in Hlv. simpl in Hlv. destruct temp; [congruence|]. simpl in Hn. lia. }
  split; [exact Hvne|].
  destruct (winner_spec votes Hvne) as (w & c & Hmax & Hc & Hc1 & Hall); [rewrite Hlv; lia|].
  exists w, c. repeat (split; [assumption|]).
  unfold doOneNoDomain. fold iSrc. rewrite (vote_tally f temp iSrc Hvalid).
  fold votes. rewrite bind_Done_l, Hmax. cbn [of_option]. rewrite bind_Done_l.
  cbn [fst snd]. rewrite thresh_majority, Hlv.
  destruct (_ && _); reflexivity.
Qed.

Lemma doOne_Done f point temp kdi :
  (1 <= m_k f < 2 ^ 31)%Z -> temp <> [] ->
  length (KD3Index.m_buf kdi) = length temp ->
  exists point', doOne f point temp kdi = Done point'.
Proof.
  intros Hk Hne Hlen. rewrite doOne_eligible. destruct (eligible f point).
  - destruct (doOneNoDomain_eval f point temp kdi Hk Hne Hlen)
      as (_ & w & c & _ & _ & _ & _ & ->). eexists. reflexivity.
  - eexists. reflexivity.
Qed.

(** X2. Without a candidate file and with a [k] of at least 1, [filter]
    runs to its end on every view, the empty one included: each vote is
    over at least one neighbour, so the maximum of the counts exists. *)
Theorem knn_filter_self_runs (loadSet : string -> list Point) (f : t) (view : list Point) :
  m_candidateFile f = ""%string ->
  (1 <= m_k f < 2 ^ 31)%Z ->
  exists view', filter loadSet f view = Done view'.
Proof.
  intros Hcand Hk. unfold filter. rewrite Hcand. simpl String.eqb. cbv iota.
  set (kdi := KD3Index.build view).
  assert (Hbuf : length (KD3Index.m_buf kdi) = length view).
  { unfold kdi, KD3Index.build. simpl. apply length_map. }
  clearbody kdi.
  assert (Hloop : forall ids (v : list Point),
            Forall (fun id => (id < length view)%nat) ids ->
            length v = length view ->
            exists v', ofold (filter_step_src f kdi) v ids = Done v').
  { induction ids as [|id ids IH]; intros v Hids Hv.
    - eexists. reflexivity.
    - inversion Hids as [|? ? Hid Hids']; subst. cbn [ofold].
      destruct (lookup_lt_is_Some_2 v id) as [p Hp]; [lia|].
      destruct (doOne_Done f p v kdi Hk) as [p' Hp'].
      { intros E. rewrite E in Hp. discriminate Hp. }
      { congruence. }
      assert (Hs : filter_step_src f kdi v id = Done (<[id := p']> v)).
      { unfold filter_step_src. rewrite Hp. cbn [of_option].
        rewrite bind_Done_l, Hp'. reflexivity. }
      rewrite Hs, bind_Done_l.
      apply IH; [exact Hids'|]. rewrite length_insert. exact Hv. }
  apply Hloop; [|reflexivity].
  apply Forall_forall. intros id Hid. apply elem_of_seq in Hid. lia.
Qed.

Lemma knn_filter_self_runs_witness :
  exists view',
    filter (fun _ => []) (create [] 3 "")
      [cls 0 1; cls 2 2; cls 4 2; cls (-5) 1; cls (-11) 2] = Done view'.
Proof.
  apply (knn_filter_self_runs (fun _ => []) (create [] 3 "")).
  - reflexivity.
  - simpl. lia.
Defined.

Lemma doOneNoDomain_no_neighbours f point :
  doOneNoDomain f point [] (KD3Index.build []) = Undefined.
Proof.
  unfold doOneNoDomain.
  assert (E : KD3Index.neighbors (KD3Index.build []) point (m_k f) = []).
  { apply nil_length_inv. unfold KD3Index.neighbors. rewrite nearest_length.
    simpl. lia. }
  rewrite E. reflexivity.
Qed.

(** X3. With a candidate file that holds no point, [filter] leaves the
    view as it is when no point of the view is subject to the vote; as
    soon as one is, it takes the maximum of an empty map of counts,
    which is undefined. *)
Theorem knn_filter_empty_candidate (loadSet : string -> list Point) (f : t)
    (view : list Point) :
  m_candidateFile f <> ""%string ->
  loadSet (m_candidateFile f) = [] ->
  filter loadSet f view =
  if existsb (eligible f) view then Undefined else Done view.
Proof.
  intros Hcand Hempty. unfold filter.
  destruct (String.eqb_spec (m_candidateFile f) "") as [E|_]; [congruence|].
  rewrite Hempty.
  pose proof (filter_cand_map f [] (KD3Index.build []) view []) as H.
  simpl in H. rewrite H. clear H.
  assert (Hmap : omap_list (fun point => doOne f point [] (KD3Index.build [])) view =
                 if existsb (eligible f) view then Undefined else Done view).
  { induction view as [|p view IH]; [reflexivity|].
    cbn [omap_list existsb]. rewrite doOne_eligible.
    destruct (eligible f p).
    - rewrite doOneNoDomain_no_neighbours. reflexivity.
    - rewrite bind_Done_l, IH. destruct (existsb (eligible f) view); reflexivity. }
  rewrite Hmap. destruct (existsb (eligible f) view); reflexivity.
Qed.

Lemma knn_filter_empty_candidate_witness :
  filter (fun _ => []) (create [] 3 "empty.las") [cls 0 1; cls 2 2] =
  if existsb (eligible (create [] 3 "empty.las")) [cls 0 1; cls 2 2]
  then Undefined else Done [cls 0 1; cls 2 2].
Proof.
  apply (knn_filter_empty_candidate (fun _ => []) (create [] 3 "empty.las")).
  - discriminate.
  - reflexivity.
Defined.

(** Writing the classification does not move the point. *)
Lemma neighbors_setField_Classification kdi w point k :
  KD3Index.neighbors kdi (setField Dimension.Classification w point) k =
  KD3Index.neighbors kdi point k.
Proof. reflexivity. Qed.

Lemma Qeq_bool_refl q : Qeq_bool q q = true.
Proof. apply Qeq_bool_iff. reflexivity. Qed.

Lemma doOneNoDomain_again f point temp kdi point' :
  m_dim f = Dimension.Classification ->
  doOneNoDomain f point temp kdi = Done point' ->
  doOneNoDomain f point' temp kdi = Done point'.
Proof.
  intros Hdim H. unfold doOneNoDomain in *. rewrite Hdim in *.
  apply bind_Done in H as (counts & Hcounts & H).
  apply bind_Done in H as (pr & Hpr & H).
  destruct (_ && _) eqn:Econd.
  - assert (point' = setField Dimension.Classification (fst pr) point) as -> by congruence.
    clear H.
    rewrite neighbors_setField_Classification, Hcounts, bind_Done_l, Hpr, bind_Done_l.
    rewrite getFieldAs_setField_eq by discriminate.
    rewrite Qeq_bool_refl, andb_false_r. reflexivity.
  - assert (point' = point) as -> by congruence. clear H.
    rewrite Hcounts, bind_Done_l, Hpr, bind_Done_l, Econd. reflexivity.
Qed.

Lemma doOne_again f point temp kdi point' :
  m_dim f = Dimension.Classification ->
  doOne f point temp kdi = Done point' ->
  doOne f point' temp kdi = Done point'.
Proof.
  intros Hdim. rewrite !doOne_eligible. destruct (eligible f point) eqn:E.
  - intros H. destruct (eligible f point'); [|reflexivity].
    eapply doOneNoDomain_again; eassumption.
  - intros H. assert (point' = point) as -> by congruence.
    rewrite E. reflexivity.
Qed.

Lemma omap_list_again {A} (g : A -> outcome A) (l l' : list A) :
  (forall a a', g a = Done a' -> g a' = Done a') ->
  omap_list g l = Done l' -> omap_list g l' = Done l'.
Proof.
  intros Hg. revert l'. induction l as [|a l IH]; intros l' H; simpl in H.
  - injection H as <-. reflexivity.
  - apply bind_Done in H as (a' & Ha & H). apply bind_Done in H as (bs & Hbs & H).
    injection H as <-. simpl. rewrite (Hg _ _ Ha), bind_Done_l, (IH _ Hbs). reflexivity.
Qed.

(** X4. With a candidate file, running [filter] again on its own result
    changes nothing: the votes come from the candidate points alone and
    the neighbours of a point do not depend on its classification. *)
Theorem knn_filter_candidate_idempotent (loadSet : string -> list Point) (f : t)
    (view view' : list Point) :
  m_candidateFile f <> ""%string ->
  m_dim f = Dimension.Classification ->
  filter loadSet f view = Done view' ->
  filter loadSet f view' = Done view'.
Proof.
  intros Hcand Hdim. unfold filter.
  destruct (String.eqb_spec (m_candidateFile f) "") as [E|_]; [congruence|].
  set (candView := loadSet (m_candidateFile f)).
  pose proof (filter_cand_map f candView (KD3Index.build candView)) as Hmap.
  pose proof (Hmap view []) as H1. pose proof (Hmap view' []) as H2.
  simpl in H1, H2. rewrite H1, H2. clear H1 H2 Hmap.
  intros H. apply bind_Done in H as (bs & Hbs & H).
  assert (bs = view') as -> by congruence.
  rewrite (omap_list_again _ view view'); [reflexivity| |exact Hbs].
  intros a a'. apply doOne_again. exact Hdim.
Qed.

Lemma knn_filter_candidate_idempotent_witness :
  let loadSet := fun _ : string => [cls 0 7; cls 2 7; cls 4 1] in
  filter loadSet (create [] 3 "candidate.las") [cls 1 7; cls 3 7] =
  Done [cls 1 7; cls 3 7].
Proof.
  apply (knn_filter_candidate_idempotent (fun _ : string => [cls 0 7; cls 2 7; cls 4 1])
           (create [] 3 "candidate.las") [cls 1 1; cls 3 7]).
  - discriminate.
  - reflexivity.
  - vm_compute. reflexivity.
Defined.

Lemma count_votes_all v votes :
  Forall (fun u => u == v) votes -> count_votes v votes = Z.of_nat (length votes).
Proof.
  intros H. unfold count_votes. f_equal. induction H as [|u votes Hu _ IH]; [reflexivity|].
  simpl. assert (E : Qeq_bool v u = true) by (apply Qeq_bool_iff; symmetry; exact Hu).
  rewrite E. simpl. rewrite IH. reflexivity.
Qed.

Lemma count_votes_pos_in v votes :
  (1 <= count_votes v votes)%Z -> exists u, u ∈ votes /\ v == u.
Proof.
  unfold count_votes. intros H.
  destruct (List.filter (Qeq_bool v) votes) as [|u l] eqn:E; [simpl in H; lia|].
  assert (Hin : In u (List.filter (Qeq_bool v) votes)) by (rewrite E; left; reflexivity).
  apply filter_In in Hin as [Hin Hu]. exists u. split; [apply list_elem_of_In; exact Hin|].
  apply Qeq_bool_iff. exact Hu.
Qed.

(** X5. When every neighbour returned votes for the same value, the
    point holds that value after [doOneNoDomain], whatever it held
    before. *)
Theorem knn_unanimous_vote (f : t) (point : Point) (temp : list Point) (kdi : KD3Index.t)
    (v : Q) :
  (1 <= m_k f < 2 ^ 31)%Z ->
  temp <> [] ->
  length (KD3Index.m_buf kdi) = length temp ->
  m_dim f = Dimension.Classification ->
  Forall (fun u => u == v) (votes_of f temp (KD3Index.neighbors kdi point (m_k f))) ->
  exists point',
    doOneNoDomain f point temp kdi = Done point' /\
    getFieldAs (m_dim f) point' == v.
Proof.
  intros Hk Hne Hlen Hdim Hall.
  destruct (doOneNoDomain_eval f point temp kdi Hk Hne Hlen)
    as (Hvne & w & c & _ & Hc & Hc1 & Hmax & ->).
  set (votes := votes_of f temp (KD3Index.neighbors kdi point (m_k f))) in *.
  assert (Hw : w == v).
  { destruct (count_votes_pos_in w votes) as (u & Hu & Hwu); [lia|].
    rewrite Forall_forall in Hall. rewrite Hwu. apply Hall. exact Hu. }
  assert (Hcn : c = Z.of_nat (length votes)).
  { rewrite Hc, (count_votes_proper w v votes Hw). apply count_votes_all. exact Hall. }
  assert (Hpos : (0 < Z.of_nat (length votes))%Z).
  { destruct votes; [congruence|simpl; lia]. }
  eexists. split; [reflexivity|].
  destruct (Z.ltb_spec (Z.of_nat (length votes)) (2 * c)) as [_|Hge]; [|lia].
  simpl andb. destruct (Qeq_bool (getFieldAs (m_dim f) point) w) eqn:E; simpl negb; cbv iota.
  - apply Qeq_bool_iff in E. rewrite E. exact Hw.
  - rewrite getFieldAs_setField_eq by (rewrite Hdim; discriminate). exact Hw.
Qed.

Lemma knn_unanimous_vote_witness :
  exists point',
    doOneNoDomain (create [] 3 "") (cls 1 1) [cls 0 7; cls 2 7; cls 4 7]
      (KD3Index.build [cls 0 7; cls 2 7; cls 4 7]) = Done point' /\
    getFieldAs (m_dim (create [] 3 "")) point' == 7.
Proof.
  apply (knn_unanimous_vote (create [] 3 "") (cls 1 1) [cls 0 7; cls 2 7; cls 4 7]
           (KD3Index.build [cls 0 7; cls 2 7; cls 4 7]) 7).
  - simpl. lia.
  - discriminate.
  - reflexivity.
  - reflexivity.
  - vm_compute. repeat constructor.
Defined.
End MoreKNN.

(** ** What the KNN stage reports and how it counts *)

Section MoreConfiguration.
Import KNNAssignFilter.
Variable parse : string -> string + DimRange.

Lemma parse_domain_all specs : forall dom ranges,
  Forall2 (fun r range => parse r = inr range) specs ranges ->
  parse_domain parse specs dom = Ok (dom ++ ranges).
Proof.
  induction specs as [|r specs IH]; intros dom ranges H.
  - inversion H; subst. rewrite app_nil_r. reflexivity.
  - inversion H as [|? range ? ranges' Hr Hrest]; subst. simpl. rewrite Hr.
    rewrite (IH (dom ++ [range]) ranges' Hrest), <- app_assoc. reflexivity.
Qed.

Lemma parse_domain_first_error pre : forall dom r what post,
  Forall (fun r' => exists range, parse r' = inr range) pre ->
  parse r = inl what ->
  parse_domain parse (pre ++ r :: post) dom = Error (InvalidDomainOption r what).
Proof.
  induction pre as [|r0 pre IH]; intros dom r what post Hpre Hr; simpl.
  - rewrite Hr. reflexivity.
  - inversion Hpre as [|? ? [range Hr0] Hpre']; subst. rewrite Hr0.
    apply IH; assumption.
Qed.

(** X7. [initialize]: when every text of the domain option parses, the
    stage holds the parsed ranges in the order of the option, unless
    [k] is below 1, which is reported; the first text that does not
    parse is reported with the parser's message, whatever [k] is. *)
Theorem knn_initialize_outcome (domain : list string) (k : Z) (candidate : string) :
  (forall ranges,
     Forall2 (fun r range => parse r = inr range) domain ranges ->
     initialize parse (create domain k candidate) =
     if (k <? 1)%Z then Error (InvalidKOption k)
     else Ok (with_domain (create domain k candidate) ranges)) /\
  (forall pre r what post,
     domain = pre ++ r :: post ->
     Forall (fun r' => exists range, parse r' = inr range) pre ->
     parse r = inl what ->
     initialize parse (create domain k candidate) = Error (InvalidDomainOption r what)).
Proof.
  split.
  - intros ranges H. unfold initialize. simpl.
    rewrite (parse_domain_all domain [] ranges H). reflexivity.
  - intros pre r what post -> Hpre Hr. unfold initialize. simpl.
    rewrite (parse_domain_first_error pre [] r what post Hpre Hr). reflexivity.
Qed.
End MoreConfiguration.

Section MorePrepared.
Import KNNAssignFilter.


Lemma resolve_domain_all layout dom :
  Forall (fun r => findDim layout (m_name r) <> Dimension.Unknown) dom ->
  resolve_domain layout dom = Ok (map (resolved layout) dom).
Proof.
  induction 1 as [|r dom Hr _ IH]; simpl; [reflexivity|].
  destruct (Dimension.eqb (findDim layout (m_name r)) Dimension.Unknown) eqn:E.
  - apply Dimension_eqb_eq in E. congruence.
  - rewrite IH. reflexivity.
Qed.

Lemma resolve_domain_first_error layout pre : forall r post,
  Forall (fun r' => findDim layout (m_name r') <> Dimension.Unknown) pre ->
  findDim layout (m_name r) = Dimension.Unknown ->
  resolve_domain layout (pre ++ r :: post) = Error (InvalidDimensionName (m_name r)).
Proof.
  induction pre as [|r0 pre IH]; intros r post Hpre Hr; simpl.
  - rewrite Hr. reflexivity.
  - inversion Hpre as [|? ? Hr0 Hpre']; subst.
    destruct (Dimension.eqb (findDim layout (m_name r0)) Dimension.Unknown) eqn:E.
    + apply Dimension_eqb_eq in E. congruence.
    + rewrite (IH r post Hpre' Hr). reflexivity.
Qed.

(** X8. [prepared]: when every range names a dimension of the layout,
    the stage keeps the same ranges, each with the id of its dimension,
    in some order, and nothing else of the stage changes; the first
    range whose name the layout lacks is reported by its name. *)
Theorem knn_prepared_outcome (layout : PointLayout) (f : t) :
  (Forall (fun r => findDim layout (m_name r) <> Dimension.Unknown) (m_domain f) ->
   exists f',
     prepared layout f = Ok f' /\
     m_domain f' ≡ₚ map (resolved layout) (m_domain f) /\
     Forall (fun r => m_id r <> Dimension.Unknown) (m_domain f') /\
     m_k f' = m_k f /\ m_dim f' = m_dim f /\ m_candidateFile f' = m_candidateFile f) /\
  (forall pre r post,
     m_domain f = pre ++ r :: post ->
     Forall (fun r' => findDim layout (m_name r') <> Dimension.Unknown) pre ->
     findDim layout (m_name r) = Dimension.Unknown ->
     prepared layout f = Error (InvalidDimensionName (m_name r))).
Proof.
  split.
  - intros Hall. unfold prepared. rewrite (resolve_domain_all layout _ Hall).
    eexists. split; [reflexivity|]. simpl.
    assert (Hperm : sort_ranges (map (resolved layout) (m_domain f))
                    ≡ₚ map (resolved layout) (m_domain f)).
    { apply merge_sort_Permutation. }
    split; [exact Hperm|]. split; [|repeat split].
    rewrite Hperm. apply Forall_fmap. eapply Forall_impl; [exact Hall|].
    intros r Hr. exact Hr.
  - intros pre r post Hdom Hpre Hr. unfold prepared. rewrite Hdom.
    rewrite (resolve_domain_first_error layout pre r post Hpre Hr). reflexivity.
Qed.
End MorePrepared.

Section MoreTally.
Import KNNAssignFilter.

Lemma sum_counts_incr w counts :
  Forall (fun p => (0 <= snd p < 2 ^ 32 - 1)%Z) counts ->
  sum_counts (counts_incr w counts) = (sum_counts counts + 1)%Z.
Proof.
  induction 1 as [|[key c] counts Hc _ IH]; simpl.
  - reflexivity.
  - simpl in Hc. destruct (w ?= key); simpl.
    + rewrite uint_incr_small by lia. lia.
    + rewrite uint_incr_small by lia. lia.
    + rewrite IH. lia.
Qed.

Lemma sum_counts_foldl votes : forall seen counts,
  tally_inv seen counts -> (Z.of_nat (length (seen ++ votes)) < 2 ^ 32)%Z ->
  sum_counts (foldl (fun counts v => counts_incr v counts) counts votes) =
  (sum_counts counts + Z.of_nat (length votes))%Z.
Proof.
  induction votes as [|w votes IH]; intros seen counts Hinv Hlen; simpl.
  - lia.
  - rewrite length_app in Hlen. simpl in Hlen.
    rewrite (IH (seen ++ [w])).
    + rewrite sum_counts_incr; [lia|].
      eapply Forall_impl; [apply (tally_inv_bound _ _ Hinv)|]. simpl. intros; lia.
    + apply tally_inv_step; [exact Hinv|lia].
    + rewrite <- app_assoc, length_app. simpl. lia.
Qed.

(** X6. The vote loop of [doOneNoDomain] over neighbours that exist
    ends with a map of counts whose keys ascend, in which each value
    voted for has one entry, each entry holds the number of votes for
    its key (at least 1), and the counts add up to the number of
    neighbours. *)
Theorem knn_tally_counts (f : t) (temp : list Point) (iSrc : list nat) :
  Forall (fun id => (id < length temp)%nat) iSrc ->
  (Z.of_nat (length iSrc) < 2 ^ 32)%Z ->
  let votes := votes_of f temp iSrc in
  exists counts,
    vote f temp iSrc = Done counts /\
    StronglySorted key_lt counts /\
    (forall p, p ∈ counts -> snd p = count_votes (fst p) votes /\ (1 <= snd p)%Z) /\
    (forall v, v ∈ votes -> exists p, p ∈ counts /\ fst p == v) /\
    sum_counts counts = Z.of_nat (length iSrc).
Proof.
  intros Hvalid Hlen votes.
  assert (Hlv : length votes = length iSrc) by apply length_map.
  exists (tally votes). split; [apply vote_tally; exact Hvalid|].
  assert (Hinv : tally_inv votes (tally votes)) by (apply tally_inv_tally; lia).
  pose proof (tally_inv_bound _ _ Hinv) as Hb.
  destruct Hinv as [Hs Hg Hp].
  split; [exact Hs|]. split; [|split].
  - intros p Hin. split.
    + rewrite <- Hg. symmetry. apply counts_get_entry; assumption.
    + rewrite Forall_forall in Hp. apply Hp. exact Hin.
  - intros v Hv.
    destruct (counts_get_cases v (tally votes)) as [(p & Hin & Hpv & _)|[_ H0]].
    + exists p. split; assumption.
    + exfalso. rewrite Hg in H0. unfold count_votes in H0.
      apply list_elem_of_In in Hv.
      assert (Hin : In v (List.filter (Qeq_bool v) votes)).
      { apply filter_In. split; [exact Hv|apply Qeq_bool_iff; reflexivity]. }
      destruct (List.filter (Qeq_bool v) votes); [inversion Hin|simpl in H0; lia].
  - unfold tally. rewrite (sum_counts_foldl votes [] []).
    + simpl. lia.
    + apply tally_inv_nil.
    + simpl. lia.
Qed.

Lemma knn_tally_counts_witness :
  let f := create [] 4 "" in
  let temp := [cls 0 7; cls 1 3; cls 2 7; cls 3 3; cls 4 7] in
  let iSrc := [0; 1; 2; 3; 4]%nat in
  let votes := votes_of f temp iSrc in
  exists counts,
    vote f temp iSrc = Done counts /\
    StronglySorted key_lt counts /\
    (forall p, p ∈ counts -> snd p = count_votes (fst p) votes /\ (1 <= snd p)%Z) /\
    (forall v, v ∈ votes -> exists p, p ∈ counts /\ fst p == v) /\
    sum_counts counts = Z.of_nat (length iSrc).
Proof.
  apply (knn_tally_counts (create [] 4 "")
           [cls 0 7; cls 1 3; cls 2 7; cls 3 3; cls 4 7] [0; 1; 2; 3; 4]%nat).
  - repeat constructor.
  - simpl. lia.
Defined.
End MoreTally.

(** ** The PMF stage as a whole *)

Section MoreRun.
Import PMFFilter.
Variable isLast : Point -> bool.
Variable erodeDiamond dilateDiamond : list Q -> nat -> nat -> Z -> list Q.




Lemma run_unfold fuel f (table : list Point) (input : list nat) :
  input <> [] ->
  let keptView := (segment_ignored f table input).1 in
  let ignoredView := (segment_ignored f table input).2 in
  let lastView := (segment_last isLast f (classify_kept keptView table) keptView).1 in
  let nonlastView := (segment_last isLast f (classify_kept keptView table) keptView).2 in
  run isLast erodeDiamond dilateDiamond fuel f table input =
  (table' ← processGround erodeDiamond dilateDiamond fuel f
              (classify_kept keptView table) lastView;
   Done (table', [ignoredView ++ nonlastView ++ lastView])).
Proof.
  intros Hne keptView ignoredView lastView nonlastView. unfold run.
  destruct (Nat.eqb_spec (length input) 0) as [E|_].
  { destruct input; [congruence|discriminate]. }
  subst keptView ignoredView lastView nonlastView.
  destruct (segment_ignored f table input) as [kept ignored]. simpl.
  destruct (segment_last isLast f (classify_kept kept table) kept) as [last nonlast].
  reflexivity.
Qed.

Lemma foldl_view_setField_length (view : list nat) dim v (ids : list nat) :
  forall table : list Point,
  length (foldl (fun table i => view_setField view dim i v table) table ids) = length table.
Proof.
  induction ids as [|i ids IH]; intros table; simpl; [reflexivity|].
  rewrite IH. unfold view_setField. destruct (view !! i); [apply length_alter|reflexivity].
Qed.

(** What [processGround] does to the table: ground points get 2. *)
Lemma processGround_writes fuel f (table table' : list Point) (view : list nat) :
  processGround erodeDiamond dilateDiamond fuel f table view = Done table' ->
  length table' = length table /\
  forall idx,
    table' !! idx = table !! idx \/
    (idx ∈ view /\ table' !! idx = setField Dimension.Classification 2 <$> table !! idx).
Proof.
  unfold processGround. intros H.
  apply bind_Done in H as (bounds & _ & H).
  apply bind_Done in H as (cols & _ & H).
  apply bind_Done in H as (rows & _ & H).
  apply bind_Done in H as (ZImin & _ & H).
  apply bind_Done in H as (ZIfull & _ & H).
  apply bind_Done in H as ([wsvec htvec] & _ & H).
  apply bind_Done in H as ([surface groundIdx] & _ & H).
  assert (table' = foldl (fun table i => view_setField view Dimension.Classification i 2 table)
                     table groundIdx) as -> by congruence.
  split; [apply foldl_view_setField_length|].
  intros idx. rewrite foldl_view_setField_lookup.
  destruct (existsb _ groundIdx) eqn:E; [|left; reflexivity].
  right. split; [|reflexivity].
  apply existsb_exists in E as (i & _ & Hi). apply bool_decide_eq_true in Hi.
  eapply list_elem_of_lookup_2. exact Hi.
Qed.



Lemma setField_setField dim v w p : setField dim v (setField dim w p) = setField dim v p.
Proof. destruct dim; reflexivity. Qed.

Lemma segment_ignored_subset f (table : list Point) (input : list nat) idx :
  idx ∈ (segment_ignored f table input).1 -> idx ∈ input.
Proof.
  unfold segment_ignored.
  destruct (Dimension.eqb (m_id (m_ignored f)) Dimension.Unknown); simpl.
  - intros H. exact H.
  - rewrite !list_elem_of_In, filter_In. intros [H _]. exact H.
Qed.

(** X10. [run] writes nothing but Classification: a point that was
    ignored is untouched, and a point that was kept differs from what
    it was only by a Classification of 1 or of 2. *)
Theorem pmf_run_writes_classification (fuel : nat) (f : t) (table table' : list Point)
    (input : list nat) (views : list (list nat)) :
  run isLast erodeDiamond dilateDiamond fuel f table input = Done (table', views) ->
  forall idx p,
    table !! idx = Some p ->
    exists p',
      table' !! idx = Some p' /\
      same_but Dimension.Classification p p' /\
      (idx ∉ (segment_ignored f table input).1 -> p' = p) /\
      (idx ∈ (segment_ignored f table input).1 ->
       p' = setField Dimension.Classification 1 p \/
       p' = setField Dimension.Classification 2 p).
Proof.
  intros H idx p Hp.
  destruct input as [|i0 input'] eqn:Einput.
  { unfold run in H. simpl in H. injection H as <- <-. exists p.
    split; [exact Hp|]. split; [apply same_but_refl|]. split; [reflexivity|].
    intros Hin. unfold segment_ignored in Hin.
    destruct (Dimension.eqb _ _); simpl in Hin; inversion Hin. }
  rewrite <- Einput in *.
  assert (Hne : input <> []) by (rewrite Einput; discriminate).
  rewrite (run_unfold fuel f table input Hne) in H.
  apply bind_Done in H as (table2 & Hpg & H).
  assert (table2 = table') as -> by congruence. clear H.
  set (keptView := (segment_ignored f table input).1) in *.
  destruct (processGround_writes _ _ _ _ _ Hpg) as [_ Hw].
  destruct (decide (idx ∈ keptView)) as [Hk|Hk].
  - assert (Hc : classify_kept keptView table !! idx
                 = Some (setField Dimension.Classification 1 p)).
    { rewrite classify_kept_in by exact Hk. rewrite Hp. reflexivity. }
    destruct (Hw idx) as [He|[_ He]]; rewrite He, Hc.
    + eexists. split; [reflexivity|]. split; [apply same_but_setField|].
      split; [contradiction|left; reflexivity].
    + cbn [fmap option_fmap option_map]. rewrite setField_setField.
      eexists. split; [reflexivity|]. split; [apply same_but_setField|].
      split; [contradiction|right; reflexivity].
  - assert (Hc : classify_kept keptView table !! idx = Some p).
    { rewrite classify_kept_other by exact Hk. exact Hp. }
    assert (Hnl : idx ∉ (segment_last isLast f (classify_kept keptView table) keptView).1).
    { intros Hl. apply Hk. eapply segment_last_subset. exact Hl. }
    destruct (Hw idx) as [He|[Hin _]]; [|contradiction].
    rewrite He, Hc. exists p. split; [reflexivity|]. split; [apply same_but_refl|].
    split; [reflexivity|contradiction].
Qed.

(** X21. With a cell size of 0, [run] returns no view for an empty
    input and is undefined for every other input: the raster size is
    the conversion of a quotient by zero. *)
Theorem pmf_run_zero_cell_size (fuel : nat) (f : t) (table : list Point)
    (input : list nat) :
  m_cellSize f == 0 ->
  run isLast erodeDiamond dilateDiamond fuel f table input =
  if Nat.eqb (length input) 0 then Done (table, []) else Undefined.
Proof.
  intros Hz. unfold run. destruct (Nat.eqb (length input) 0); [reflexivity|].
  destruct (segment_ignored f table input) as [kept ignored].
  destruct (segment_last isLast f (classify_kept kept table) kept) as [last nonlast].
  rewrite pmf_zero_cell_size_undefined by exact Hz. reflexivity.
Qed.
End MoreRun.


Lemma pmf_run_writes_classification_witness :
  let p := pmf_table !!! 1%nat in
  exists p',
    [mkPoint 0 0 0 2 1 1; mkPoint (5 # 2) 0 0 1 1 2; mkPoint 1 1 10 1 2 2;
     mkPoint 2 0 0 7 1 1] !! 1%nat = Some p' /\
    same_but Dimension.Classification p p' /\
    (1%nat ∉ (PMFFilter.segment_ignored pmf_ignore_7 pmf_table [0; 1; 2; 3]%nat).1 ->
     p' = p) /\
    (1%nat ∈ (PMFFilter.segment_ignored pmf_ignore_7 pmf_table [0; 1; 2; 3]%nat).1 ->
     p' = setField Dimension.Classification 1 p \/
     p' = setField Dimension.Classification 2 p).
Proof.
  apply (pmf_run_writes_classification last_return eigen.erodeDiamond
           eigen.dilateDiamond 5 pmf_ignore_7 pmf_table _ [0; 1; 2; 3]%nat
           [[3; 1; 0; 2]%nat]).
  - vm_compute. reflexivity.
  - reflexivity.
Defined.

Lemma pmf_run_zero_cell_size_witness :
  PMFFilter.run last_return eigen.erodeDiamond eigen.dilateDiamond 5
    (PMFFilter.mk 0 true PMFFilter.no_range (15 # 100) true (25 # 10) 33 1)
    pmf_table [0; 1; 2; 3]%nat = Undefined.
Proof.
  apply (pmf_run_zero_cell_size last_return eigen.erodeDiamond eigen.dilateDiamond 5
           (PMFFilter.mk 0 true PMFFilter.no_range (15 # 100) true (25 # 10) 33 1)
           pmf_table [0; 1; 2; 3]%nat).
  reflexivity.
Defined.

(** ** What the PMF stage makes of its layout *)

Section MorePrepare.
Import PMFFilter.
Variable isLast : Point -> bool.

(** X11. [prepared] never fails. An ignore range whose dimension the
    layout lacks makes [run] keep every point; without ReturnNumber or
    NumberOfReturns in the layout every kept point is filtered, with a
    warning when last returns were asked for; with both, the option is
    left as it was and nothing is logged. *)
Theorem pmf_prepared_degrades (layout : PointLayout) (f : t) :
  exists f' log,
    prepared layout f = Ok (f', log) /\
    m_id (m_ignored f') = findDim layout (m_name (m_ignored f)) /\
    (findDim layout (m_name (m_ignored f)) = Dimension.Unknown ->
     forall (table : list Point) (input : list nat),
       segment_ignored f' table input = (input, [])) /\
    (hasDim layout Dimension.ReturnNumber && hasDim layout Dimension.NumberOfReturns = false ->
     (forall (table : list Point) (keptView : list nat),
        segment_last isLast f' table keptView = (keptView, [])) /\
     (m_lastOnly f = true -> log = [Warning_no_return_dimensions])) /\
    (hasDim layout Dimension.ReturnNumber && hasDim layout Dimension.NumberOfReturns = true ->
     m_lastOnly f' = m_lastOnly f /\ log = []).
Proof.
  unfold prepared.
  assert (Hign : forall f' : t,
            m_id (m_ignored f') = findDim layout (m_name (m_ignored f)) ->
            findDim layout (m_name (m_ignored f)) = Dimension.Unknown ->
            forall (table : list Point) (input : list nat),
              segment_ignored f' table input = (input, [])).
  { intros f' Hid Hunk table input. unfold segment_ignored. rewrite Hid, Hunk. reflexivity. }
  destruct (m_lastOnly f) eqn:El;
    [destruct (hasDim layout Dimension.ReturnNumber) eqn:Ern;
     destruct (hasDim layout Dimension.NumberOfReturns) eqn:Enr|];
    simpl; eexists; eexists; (split; [reflexivity|]);
    (split; [reflexivity|]); (split; [apply Hign; reflexivity|]); split; intros H;
    first [discriminate H
          | split; first [reflexivity | congruence | intros; reflexivity]].
Qed.
End MorePrepare.

(** ** The minimum surface *)

Section MoreRaster.
Import PMFFilter.

Lemma vec_at_inv {A} (v : list A) (idx : Z) a :
  vec_at v idx = Done a -> (0 <= idx)%Z /\ v !! Z.to_nat idx = Some a.
Proof.
  unfold vec_at. destruct (Z.ltb_spec idx 0) as [Hneg|Hpos]; [discriminate|].
  destruct (v !! Z.to_nat idx); simpl; [|discriminate].
  intros Ha. injection Ha as <-. split; [assumption|reflexivity].
Qed.

Lemma bin_inv_step f (table : list Point) bounds rows n binned ZImin idx_p ZImin' :
  bin_inv f table bounds rows n binned ZImin ->
  bin_point f table bounds rows ZImin idx_p = Done ZImin' ->
  bin_inv f table bounds rows n (binned ++ [idx_p]) ZImin'.
Proof.
  intros (Hlen & Hmin & Hsome) H. unfold bin_point in H.
  apply bind_Done in H as (cell & Hcell & H).
  apply vec_at_inv in Hcell as [_ Hcell].
  fold (bin_of f bounds rows (table !!! idx_p)) in Hcell, H.
  set (i := bin_of f bounds rows (table !!! idx_p)) in *.
  set (z := pt_Z (table !!! idx_p)) in *.
  assert (Hi : (i < length ZImin)%nat) by (eapply lookup_lt_Some; exact Hcell).
  assert (Hupd : (match cell with Some z0 => z < z0 | None => True end) ->
                 bin_inv f table bounds rows n (binned ++ [idx_p]) (<[i := Some z]> ZImin)).
  { intros Hlt. split; [rewrite length_insert; exact Hlen|]. split.
    - intros idx Hin. apply elem_of_app in Hin as [Hin|Hin].
      + destruct (Hmin idx Hin) as (z1 & Hz1 & Hle).
        destruct (decide (bin_of f bounds rows (table !!! idx) = i)) as [E|E].
        * rewrite E in *. exists z. rewrite list_lookup_insert_eq by exact Hi.
          split; [reflexivity|].
          assert (cell = Some z1) as -> by congruence.
          apply Qlt_le_weak. eapply Qlt_le_trans; eassumption.
        * exists z1. rewrite list_lookup_insert_ne by congruence. split; assumption.
      + apply list_elem_of_singleton in Hin as ->. exists z.
        rewrite list_lookup_insert_eq by exact Hi. split; [reflexivity|apply Qle_refl].
    - intros j zj Hj. destruct (decide (j = i)) as [->|E].
      + rewrite list_lookup_insert_eq in Hj by exact Hi.
        exists idx_p. split; [apply elem_of_app; right; left|].
        split; [reflexivity|]. injection Hj as <-. reflexivity.
      + rewrite list_lookup_insert_ne in Hj by congruence.
        destruct (Hsome j zj Hj) as (idx & Hin & Hb & Hz).
        exists idx. split; [apply elem_of_app; left; exact Hin|]. split; assumption. }
  destruct cell as [z0|].
  - destruct (Qltb z z0) eqn:E.
    + assert (ZImin' = <[i := Some z]> ZImin) as -> by congruence.
      apply Hupd. apply Qltb_lt. exact E.
    + assert (ZImin' = ZImin) as -> by congruence. apply Qltb_ge in E.
      split; [exact Hlen|]. split.
      * intros idx Hin. apply elem_of_app in Hin as [Hin|Hin]; [apply Hmin; exact Hin|].
        apply list_elem_of_singleton in Hin as ->. exists z0. split; [exact Hcell|exact E].
      * intros j zj Hj. destruct (Hsome j zj Hj) as (idx & Hin & Hb & Hz).
        exists idx. split; [apply elem_of_app; left; exact Hin|]. split; assumption.
  - assert (ZImin' = <[i := Some z]> ZImin) as -> by congruence.
    apply Hupd. exact I.
Qed.

Lemma bin_inv_fold f (table : list Point) bounds rows n (todo : list nat) :
  forall binned ZImin ZImin',
  bin_inv f table bounds rows n binned ZImin ->
  ofold (bin_point f table bounds rows) ZImin todo = Done ZImin' ->
  bin_inv f table bounds rows n (binned ++ todo) ZImin'.
Proof.
  induction todo as [|idx_p todo IH]; intros binned ZImin ZImin' Hinv H; simpl in H.
  - injection H as <-. rewrite app_nil_r. exact Hinv.
  - apply bind_Done in H as (Z1 & Hstep & H).
    replace (binned ++ idx_p :: todo) with ((binned ++ [idx_p]) ++ todo)
      by (rewrite <- app_assoc; reflexivity).
    eapply IH; [|exact H]. eapply bin_inv_step; eassumption.
Qed.

(** X14. After the binning loop the raster has its initial size, the
    cell of every point of the view holds a height that is at most the
    point's, and every height in the raster is the height of a point
    of the view that was binned into that cell. *)
Theorem pmf_binning_keeps_minimum (f : t) (table : list Point) (bounds : BOX2D)
    (rows : Z) (n : nat) (view : list nat) (ZImin : list (option Q)) :
  ofold (bin_point f table bounds rows) (replicate n None) view = Done ZImin ->
  length ZImin = n /\
  (forall idx, idx ∈ view ->
     exists z, ZImin !! bin_of f bounds rows (table !!! idx) = Some (Some z) /\
               z <= pt_Z (table !!! idx)) /\
  (forall i z, ZImin !! i = Some (Some z) ->
     exists idx, idx ∈ view /\ bin_of f bounds rows (table !!! idx) = i /\
                 z = pt_Z (table !!! idx)).
Proof.
  intros H. apply (bin_inv_fold f table bounds rows n view [] (replicate n None) ZImin); [|exact H].
  split; [apply length_replicate|]. split.
  - intros idx Hin. inversion Hin.
  - intros i z Hi. apply lookup_replicate in Hi as [Hi _]. discriminate Hi.
Qed.

Lemma pmf_binning_keeps_minimum_witness :
  let f := defaults in
  let table := [xyz 0 0 4; xyz (1 # 2) 0 1; xyz 1 0 7; xyz (1 # 4) 0 2] in
  let bounds := mkBOX2D 0 1 0 0 in
  let view := [0; 1; 2; 3]%nat in
  let ZImin := [Some 1; Some 7] in
  length ZImin = 2%nat /\
  (forall idx, idx ∈ view ->
     exists z, ZImin !! bin_of f bounds 1 (table !!! idx) = Some (Some z) /\
               z <= pt_Z (table !!! idx)) /\
  (forall i z, ZImin !! i = Some (Some z) ->
     exists idx, idx ∈ view /\ bin_of f bounds 1 (table !!! idx) = i /\
                 z = pt_Z (table !!! idx)).
Proof.
  apply (pmf_binning_keeps_minimum defaults
           [xyz 0 0 4; xyz (1 # 2) 0 1; xyz 1 0 7; xyz (1 # 4) 0 2]
           (mkBOX2D 0 1 0 0) 1 2 [0; 1; 2; 3]%nat).
  reflexivity.
Defined.
End MoreRaster.

(** ** Gap filling *)

Section MoreGaps.
Import PMFFilter.

Lemma lookup_bind_blocks {A B} (g : A -> list B) (n : nat) (l : list A) :
  (forall a, length (g a) = n) ->
  forall i j a, l !! i = Some a -> (j < n)%nat -> (l ≫= g) !! (i * n + j)%nat = g a !! j.
Proof.
  intros Hg. induction l as [|a0 l IH]; intros i j a Hi Hj; [discriminate Hi|].
  rewrite bind_cons. destruct i as [|i].
  - injection Hi as ->. simpl. apply lookup_app_l. rewrite Hg. exact Hj.
  - simpl in Hi. rewrite lookup_app_r by (rewrite Hg; simpl; lia).
    rewrite Hg. replace (S i * n + j - n)%nat with (i * n + j)%nat by (simpl; lia).
    apply IH; assumption.
Qed.

Lemma cells_lookup rows cols c r :
  (c < cols)%nat -> (r < rows)%nat -> cells rows cols !! (c * rows + r)%nat = Some (c, r).
Proof.
  intros Hc Hr. unfold cells.
  assert (Hrow : forall c' : nat,
            length (seq 0 rows ≫= fun r' => [(c', r')]) = rows).
  { intros c'. rewrite (length_list_bind _ 1%nat).
    - rewrite length_seq. lia.
    - intros r'. reflexivity. }
  rewrite (lookup_bind_blocks _ rows (seq 0 cols) Hrow c r c);
    [|apply lookup_seq_lt; exact Hc|exact Hr].
  assert (Hone : forall r' : nat, length [(c, r')] = 1%nat) by reflexivity.
  pose proof (lookup_bind_blocks (fun r' => [(c, r')]) 1%nat (seq 0 rows) Hone r 0%nat r)
    as H.
  rewrite Nat.mul_1_r, Nat.add_0_r in H. rewrite H; [reflexivity| |lia].
  apply lookup_seq_lt. exact Hr.
Qed.

Lemma omap_list_lookup {A B} (g : A -> outcome B) (l : list A) : forall bs i a,
  omap_list g l = Done bs -> l !! i = Some a ->
  exists b, bs !! i = Some b /\ g a = Done b.
Proof.
  induction l as [|a0 l IH]; intros bs i a H Hi; [discriminate Hi|].
  simpl in H. apply bind_Done in H as (b0 & Hb0 & H).
  apply bind_Done in H as (bs' & Hbs' & H). injection H as <-.
  destruct i as [|i].
  - injection Hi as <-. exists b0. split; [reflexivity|exact Hb0].
  - simpl in Hi. apply (IH bs' i a Hbs' Hi).
Qed.

Lemma omap_list_length {A B} (g : A -> outcome B) (l : list A) : forall bs,
  omap_list g l = Done bs -> length bs = length l.
Proof.
  induction l as [|a0 l IH]; intros bs H; simpl in H.
  - injection H as <-. reflexivity.
  - apply bind_Done in H as (b0 & _ & H). apply bind_Done in H as (bs' & Hbs' & H).
    injection H as <-. simpl. rewrite (IH bs' Hbs'). reflexivity.
Qed.

Lemma fill_gaps_cells (f : t) (bounds : BOX2D) (rows cols : nat)
    (ZImin : list (option Q)) (temp : list (Q * Q * Q)) (kdi : KD2Index.t)
    (surface : list Q) :
  fill_gaps f bounds rows cols ZImin temp kdi = Done surface ->
  length surface = (cols * rows)%nat /\
  forall c r, (c < cols)%nat -> (r < rows)%nat ->
    exists cell z,
      ZImin !! (c * rows + r)%nat = Some cell /\
      surface !! (c * rows + r)%nat = Some z /\
      match cell with
      | Some z0 => z = z0
      | None => exists x y, (x, y, z) ∈ temp
      end.
Proof.
  intros H. unfold fill_gaps in H. split.
  - rewrite (omap_list_length _ _ _ H). apply length_cells.
  - intros c r Hc Hr.
    destruct (omap_list_lookup _ _ _ _ _ H (cells_lookup rows cols c r Hc Hr))
      as (z & Hz & Hg).
    cbv beta iota in Hg. apply bind_Done in Hg as (cell & Hcell & Hg).
    exists cell, z. split; [destruct (ZImin !! _); [simpl in Hcell; congruence|discriminate]|].
    split; [exact Hz|]. destruct cell as [z0|].
    + congruence.
    + apply bind_Done in Hg as ([[x y] z'] & Hnn & Hg). simpl in Hg.
      assert (z' = z) as -> by congruence. exists x, y.
      destruct (temp !! _) eqn:E; [|discriminate]. simpl in Hnn.
      eapply list_elem_of_lookup_2. rewrite E. congruence.
Qed.

Lemma populated_cells_elem f bounds rows cols (ZImin : list (option Q)) x y z :
  (x, y, z) ∈ populated_cells f bounds rows cols ZImin ->
  exists i, ZImin !! i = Some (Some z).
Proof.
  unfold populated_cells. intros H. apply list_elem_of_bind in H as ([c r] & H & _).
  exists (c * rows + r)%nat.
  destruct (ZImin !! (c * rows + r)%nat) as [[z0|]|]; try (apply elem_of_nil in H; contradiction).
  apply list_elem_of_singleton in H. congruence.
Qed.

(** X15. On a raster of [cols * rows] cells of which one at least is
    populated, gap filling returns a raster of as many heights; a cell
    that was populated keeps its height, and an empty cell takes the
    height of one of the populated cells. *)
Theorem pmf_fill_gaps_surface (f : t) (bounds : BOX2D) (rows cols : nat)
    (ZImin : list (option Q)) :
  length ZImin = (cols * rows)%nat -> populated ZImin ->
  let temp := populated_cells f bounds rows cols ZImin in
  exists surface,
    fill_gaps f bounds rows cols ZImin temp (KD2Index.build temp) = Done surface /\
    length surface = (cols * rows)%nat /\
    forall c r, (c < cols)%nat -> (r < rows)%nat ->
      exists cell z,
        ZImin !! (c * rows + r)%nat = Some cell /\
        surface !! (c * rows + r)%nat = Some z /\
        match cell with
        | Some z0 => z = z0
        | None => exists i, ZImin !! i = Some (Some z)
        end.
Proof.
  intros Hlen Hpop temp.
  destruct (fill_gaps_Done f bounds rows cols ZImin Hlen Hpop) as (surface & Hs & Hl).
  exists surface. split; [exact Hs|]. split; [exact Hl|].
  intros c r Hc Hr.
  destruct (fill_gaps_cells _ _ _ _ _ _ _ _ Hs) as [_ Hcells].
  destruct (Hcells c r Hc Hr) as (cell & z & Hcell & Hz & Hm).
  exists cell, z. split; [exact Hcell|]. split; [exact Hz|].
  destruct cell as [z0|]; [exact Hm|].
  destruct Hm as (x & y & Hin). eapply populated_cells_elem. exact Hin.
Qed.

Lemma pmf_fill_gaps_surface_witness :
  let ZImin := [Some 4; None; Some 9] in
  let temp := populated_cells defaults (mkBOX2D 0 2 0 0) 1 3 ZImin in
  exists surface,
    fill_gaps defaults (mkBOX2D 0 2 0 0) 1 3 ZImin temp (KD2Index.build temp)
      = Done surface /\
    length surface = (3 * 1)%nat /\
    forall c r, (c < 3)%nat -> (r < 1)%nat ->
      exists cell z,
        ZImin !! (c * 1 + r)%nat = Some cell /\
        surface !! (c * 1 + r)%nat = Some z /\
        match cell with
        | Some z0 => z = z0
        | None => exists i, ZImin !! i = Some (Some z)
        end.
Proof.
  apply (pmf_fill_gaps_surface defaults (mkBOX2D 0 2 0 0) 1 3 [Some 4; None; Some 9]).
  - reflexivity.
  - exists 0%nat, 4. reflexivity.
Defined.

(** X16. Gap filling leaves a raster without empty cells as it is. *)
Theorem pmf_fill_gaps_dense (f : t) (bounds : BOX2D) (rows cols : nat)
    (data : list Q) (temp : list (Q * Q * Q)) (kdi : KD2Index.t) :
  length data = (cols * rows)%nat ->
  fill_gaps f bounds rows cols (map Some data) temp kdi = Done data.
Proof.
  intros Hlen.
  assert (Hex : exists surface,
            fill_gaps f bounds rows cols (map Some data) temp kdi = Done surface).
  { unfold fill_gaps.
    match goal with
    | |- exists s, omap_list ?g ?l = Done s =>
        destruct (omap_list_Done g l) as (surface & Hs & _); [|exists surface; exact Hs]
    end.
    intros [c r] Hin. apply elem_of_cells in Hin as [Hc Hr].
    destruct (lookup_lt_is_Some_2 data (c * rows + r)) as [z Hz]; [nia|].
    rewrite list_lookup_fmap, Hz. simpl. eexists. reflexivity. }
  destruct Hex as [surface Hs]. rewrite Hs. f_equal.
  destruct (fill_gaps_cells f bounds rows cols (map Some data) temp kdi surface Hs)
    as [Hlen' Hcells].
  apply list_eq. intros i.
  destruct (decide (i < cols * rows)%nat) as [Hi|Hi].
  - assert (Hrows : (0 < rows)%nat) by (destruct rows; lia).
    assert (Hdiv : (i / rows < cols)%nat) by (apply Nat.Div0.div_lt_upper_bound; lia).
    assert (Hmod : (i mod rows < rows)%nat) by (apply Nat.mod_upper_bound; lia).
    destruct (Hcells _ _ Hdiv Hmod) as (cell & z & Hcell & Hz & Hm).
    replace (i / rows * rows + i mod rows)%nat with i in *
      by (rewrite (Nat.div_mod_eq i rows) at 1; lia).
    rewrite Hz. rewrite list_lookup_fmap in Hcell.
    destruct (data !! i) as [z0|]; [|discriminate Hcell].
    simpl in Hcell. injection Hcell as <-. congruence.
  - rewrite !lookup_ge_None_2 by lia. reflexivity.
Qed.

Lemma pmf_fill_gaps_dense_witness :
  fill_gaps defaults (mkBOX2D 0 2 0 0) 1 3 (map Some [4; 5; 9]) [] (KD2Index.build [])
  = Done [4; 5; 9].
Proof.
  apply (pmf_fill_gaps_dense defaults (mkBOX2D 0 2 0 0) 1 3 [4; 5; 9] [] (KD2Index.build [])).
  reflexivity.
Defined.
End MoreGaps.

(** ** The loop of window sizes *)

Section MoreScales.
Import PMFFilter.
Variable f : t.






Lemma window_size_nonpos iter : m_cellSize f <= 0 -> window_size f iter <= 0.
Proof.
  intros Hc. rewrite window_size_factor.
  assert (Hf : 0 <= window_factor f iter).
  { unfold window_factor. destruct (m_exponential f).
    - pose proof (pow2_Q_pos iter). lra.
    - assert (0 <= inject_Z (Z.of_nat iter)).
      { change 0 with (inject_Z 0). rewrite <- Zle_Qle. lia. }
      lra. }
  eapply Qle_trans; [apply Qmult_le_compat_r; eassumption|].
  rewrite Qmult_0_l. apply Qle_refl.
Qed.

(** X18. With a cell size that is not positive and a positive maximum
    window size, the loop of window sizes never ends: no number of
    iterations gives a result. *)
Theorem pmf_scales_never_ends (fuel : nat) :
  m_cellSize f <= 0 -> 0 < m_maxWindowSize f ->
  scales fuel f 0 0 [] [] = OutOfFuel.
Proof.
  intros Hc Hmax.
  assert (Hloop : forall fuel iter ws wsvec htvec,
            ws <= 0 -> length wsvec = iter ->
            scales fuel f iter ws wsvec htvec = OutOfFuel).
  { clear fuel. induction fuel as [|fuel IH]; intros iter ws wsvec htvec Hws Hlen; simpl.
    - assert (E : Qltb ws (m_maxWindowSize f) = true) by (apply Qltb_lt; lra).
      rewrite E. reflexivity.
    - assert (E : Qltb ws (m_maxWindowSize f) = true) by (apply Qltb_lt; lra).
      rewrite E.
      assert (Hnext : forall ht,
                scales fuel f (S iter) (window_size f iter)
                  (wsvec ++ [window_size f iter]) (htvec ++ [ht]) = OutOfFuel).
      { intros ht. apply IH; [apply window_size_nonpos; exact Hc|].
        rewrite length_app. simpl. lia. }
      destruct (Nat.eqb_spec iter 0) as [Ei|Ei].
      + rewrite bind_Done_l. apply Hnext.
      + destruct (lookup_lt_is_Some_2 wsvec (iter - 1)) as [prev Hprev]; [lia|].
        rewrite Hprev. cbn [of_option]. rewrite !bind_Done_l. apply Hnext. }
  apply Hloop; [apply Qle_refl|reflexivity].
Qed.
End MoreScales.


Lemma pmf_scales_never_ends_witness :
  PMFFilter.scales 7 (PMFFilter.mk (-1) true PMFFilter.no_range (15 # 100) true
                        (25 # 10) 33 1) 0 0 [] [] = OutOfFuel.
Proof.
  apply (pmf_scales_never_ends
           (PMFFilter.mk (-1) true PMFFilter.no_range (15 # 100) true (25 # 10) 33 1) 7).
  - discriminate.
  - reflexivity.
Defined.

(** ** The progressive filter and the raster positions *)

Section MoreGround.
Import PMFFilter.
Variable erodeDiamond dilateDiamond : list Q -> nat -> nat -> Z -> list Q.

Lemma filter_pass_sublist f (table : list Point) (view : list nat) bounds rows cols
    ZImin groundIdx wsht mo groundNewIdx :
  filter_pass erodeDiamond dilateDiamond f table view bounds rows cols
    (ZImin, groundIdx) wsht = Done (mo, groundNewIdx) ->
  groundNewIdx `sublist_of` groundIdx.
Proof.
  destruct wsht as [ws ht]. unfold filter_pass. cbv beta iota zeta.
  intros H. apply bind_Done in H as (new & Hfold & H).
  assert (new = groundNewIdx) as -> by congruence. clear H.
  revert Hfold. generalize (dilateDiamond
    (erodeDiamond ZImin (Z.to_nat rows) (Z.to_nat cols) (Qtrunc ((1 # 2) * (ws - 1))))
    (Z.to_nat rows) (Z.to_nat cols) (Qtrunc ((1 # 2) * (ws - 1)))). intros mo' Hfold.
  assert (Hgen : forall g acc new,
            ofold (fun groundNewIdx p_idx =>
                     m ← vec_at mo' (filter_index f bounds rows
                                      (view_getFieldAs table view Dimension.X p_idx)
                                      (view_getFieldAs table view Dimension.Y p_idx));
                     if Qltb (view_getFieldAs table view Dimension.Z p_idx - m) ht
                     then Done (groundNewIdx ++ [p_idx])
                     else Done groundNewIdx) acc g = Done new ->
            exists kept, new = acc ++ kept /\ kept `sublist_of` g).
  { induction g as [|p g IH]; intros acc new H; simpl in H.
    - injection H as <-. exists []. split; [rewrite app_nil_r; reflexivity|constructor].
    - apply bind_Done in H as (acc' & Hstep & H).
      apply bind_Done in Hstep as (m & _ & Hstep).
      destruct (IH acc' new H) as (kept & -> & Hsub).
      destruct (Qltb _ ht).
      + assert (acc' = acc ++ [p]) as -> by congruence.
        exists (p :: kept). split; [rewrite <- app_assoc; reflexivity|].
        constructor. exact Hsub.
      + assert (acc' = acc) as -> by congruence.
        exists kept. split; [reflexivity|]. constructor. exact Hsub. }
  destruct (Hgen groundIdx [] groundNewIdx Hfold) as (kept & -> & Hsub). exact Hsub.
Qed.

(** X19. The passes of the progressive filter only remove ground
    candidates: the candidates left after any number of passes are a
    sublist, in the same order, of those before. *)
Theorem pmf_ground_candidates_shrink (f : t) (table : list Point) (view : list nat)
    (bounds : BOX2D) (rows cols : Z) (passes : list (Q * Q))
    (ZImin ZImin' : list Q) (groundIdx groundIdx' : list nat) :
  ofold (filter_pass erodeDiamond dilateDiamond f table view bounds rows cols)
    (ZImin, groundIdx) passes = Done (ZImin', groundIdx') ->
  groundIdx' `sublist_of` groundIdx.
Proof.
  revert ZImin groundIdx. induction passes as [|wsht passes IH]; intros ZImin groundIdx H.
  - simpl in H. injection H as _ <-. reflexivity.
  - cbn [ofold] in H. apply bind_Done in H as ([mo new] & Hpass & H).
    etransitivity; [apply (IH mo new H)|].
    eapply filter_pass_sublist. exact Hpass.
Qed.

(** X20. With a positive cell size and a maximum window size that is
    not positive, no pass is made and [processGround] labels every
    point of the view as ground (2). *)
Theorem pmf_no_window_all_ground (fuel : nat) (f : t) (table : list Point)
    (view : list nat) :
  0 < m_cellSize f -> view <> [] -> m_maxWindowSize f <= 0 ->
  exists table',
    processGround erodeDiamond dilateDiamond fuel f table view = Done table' /\
    forall idx, idx ∈ view ->
      table' !! idx = setField Dimension.Classification 2 <$> table !! idx.
Proof.
  intros Hc Hne Hmax. unfold processGround.
  destruct (calculateBounds table view) as [bounds|] eqn:Eb;
    [|destruct view; [congruence|discriminate]].
  cbn [of_option]. rewrite bind_Done_l.
  destruct (calculateBounds_ordered table view bounds Eb) as [Hx Hy].
  pose proof (grid_size_floor f _ _ Hc Hx) as Hcols.
  pose proof (grid_size_floor f _ _ Hc Hy) as Hrows.
  set (cols := (Qfloor ((maxx bounds - minx bounds) / m_cellSize f) + 1)%Z) in *.
  set (rows := (Qfloor ((maxy bounds - miny bounds) / m_cellSize f) + 1)%Z) in *.
  pose proof (grid_size_pos f _ _ cols Hc Hx Hcols) as Hc1.
  pose proof (grid_size_pos f _ _ rows Hc Hy Hrows) as Hr1.
  rewrite Hcols, bind_Done_l, Hrows, bind_Done_l.
  assert (Hbox : forall idx, idx ∈ view -> in_box bounds (table !!! idx)).
  { intros idx Hin. eapply calculateBounds_contains; eassumption. }
  destruct (bin_points_Done f table bounds rows cols view Hc Hcols Hrows Hbox
              (replicate (Z.to_nat (rows * cols)) None)) as (ZImin & -> & Hlen & Hpop).
  { apply length_replicate. }
  rewrite bind_Done_l.
  assert (Hlen' : length ZImin = (Z.to_nat cols * Z.to_nat rows)%nat).
  { rewrite Hlen. rewrite Z.mul_comm. apply Z2Nat.inj_mul; lia. }
  destruct (fill_gaps_Done f bounds (Z.to_nat rows) (Z.to_nat cols) ZImin Hlen')
    as (surface & -> & Hsurf).
  { apply Hpop. left. exact Hne. }
  rewrite bind_Done_l.
  assert (Hscales : scales fuel f 0 0 [] [] = Done ([], [])).
  { apply Qltb_ge in Hmax. destruct fuel; simpl; rewrite Hmax; reflexivity. }
  rewrite Hscales, bind_Done_l. cbn [zip zip_with ofold]. rewrite bind_Done_l.
  eexists. split; [reflexivity|].
  intros idx Hin. rewrite foldl_view_setField_lookup.
  apply list_elem_of_lookup_1 in Hin as [i Hi].
  assert (E : existsb (fun i => bool_decide (view !! i = Some idx)) (seq 0 (length view))
              = true).
  { apply existsb_exists. exists i. split.
    - apply in_seq. apply lookup_lt_Some in Hi. lia.
    - apply bool_decide_eq_true. exact Hi. }
  rewrite E. reflexivity.
Qed.

End MoreGround.

Section MoreIndices.
Import PMFFilter.

Lemma Qfloor_div_Z a n : (0 < n)%Z -> Qfloor (inject_Z a / inject_Z n) = (a / n)%Z.
Proof.
  intros Hn. destruct n as [|p|p]; try lia.
  unfold Qdiv, Qinv, inject_Z, Qmult, Qfloor. simpl.
  rewrite Z.mul_1_r. reflexivity.
Qed.

Lemma Qfloor_div_floor d n : (0 < n)%Z -> Qfloor (d / inject_Z n) = (Qfloor d / n)%Z.
Proof.
  intros Hn. destruct n as [|p|p]; try lia. destruct d as [a b].
  unfold Qdiv, Qinv, inject_Z, Qmult, Qfloor. simpl.
  rewrite Z.mul_1_r, Pos2Z.inj_mul. rewrite Z.div_div by lia. reflexivity.
Qed.

Lemma cell_of_integer_size (cell d : Q) (n : Z) :
  cell == inject_Z n -> (1 <= n)%Z -> 0 <= d ->
  Qtrunc (inject_Z (Qfloor d) / cell) = Qfloor (d / cell).
Proof.
  intros Hcell Hn Hd.
  assert (Hpos : 0 < cell).
  { rewrite Hcell. change 0 with (inject_Z 0). rewrite <- Zlt_Qlt. lia. }
  rewrite Qtrunc_nonneg.
  - rewrite Hcell, Qfloor_div_Z, Qfloor_div_floor by lia. reflexivity.
  - apply Qdiv_nonneg; [|exact Hpos].
    change 0 with (inject_Z 0). rewrite <- Zle_Qle. apply Qfloor_nonneg. exact Hd.
Qed.

(** X13. When the cell size is a whole number of at least 1 (the
    default of 1 included), the binning loop and the filtering loop
    compute the same raster position for every point at or beyond the
    minimum corner. *)
Theorem pmf_integer_cell_size_indices_agree (f : t) (bounds : BOX2D) (rows n : Z)
    (x y : Q) :
  m_cellSize f == inject_Z n -> (1 <= n)%Z ->
  minx bounds <= x -> miny bounds <= y ->
  bin_index f bounds rows x y = filter_index f bounds rows x y.
Proof.
  intros Hcell Hn Hx Hy. unfold bin_index, filter_index.
  rewrite (cell_of_integer_size _ (x - minx bounds) n Hcell Hn) by lra.
  rewrite (cell_of_integer_size _ (y - miny bounds) n Hcell Hn) by lra.
  reflexivity.
Qed.

Lemma pmf_integer_cell_size_indices_agree_witness :
  bin_index (mk 2 true no_range (15 # 100) true (25 # 10) 33 1)
    (mkBOX2D 0 10 0 10) 6 (7 # 2) (19 # 4) =
  filter_index (mk 2 true no_range (15 # 100) true (25 # 10) 33 1)
    (mkBOX2D 0 10 0 10) 6 (7 # 2) (19 # 4).
Proof.
  apply (pmf_integer_cell_size_indices_agree
           (mk 2 true no_range (15 # 100) true (25 # 10) 33 1)
           (mkBOX2D 0 10 0 10) 6 2 (7 # 2) (19 # 4)).
  - reflexivity.
  - lia.
  - discriminate.
  - discriminate.
Defined.
End MoreIndices.

Lemma pmf_ground_candidates_shrink_witness :
  [0; 2]%nat `sublist_of` [0; 1; 2]%nat.
Proof.
  apply (pmf_ground_candidates_shrink eigen.erodeDiamond eigen.dilateDiamond
           PMFFilter.defaults [xyz 0 0 0; xyz 1 0 10; xyz 2 0 0] [0; 1; 2]%nat
           (mkBOX2D 0 2 0 0) 1 3 [(3, 15 # 100); (5, 215 # 100)]
           [0; 10; 0] [0; 0; 0] [0; 1; 2]%nat [0; 2]%nat).
  vm_compute. reflexivity.
Defined.

Lemma pmf_no_window_all_ground_witness :
  let f := PMFFilter.mk 1 true PMFFilter.no_range (15 # 100) true (25 # 10) 0 1 in
  let table := [xyz 0 0 0; xyz 1 0 10; xyz 2 0 0] in
  exists table',
    PMFFilter.processGround eigen.erodeDiamond eigen.dilateDiamond 0 f table [0; 1; 2]%nat
      = Done table' /\
    forall idx, idx ∈ [0; 1; 2]%nat ->
      table' !! idx = setField Dimension.Classification 2 <$> table !! idx.
Proof.
  apply (pmf_no_window_all_ground eigen.erodeDiamond eigen.dilateDiamond 0
           (PMFFilter.mk 1 true PMFFilter.no_range (15 # 100) true (25 # 10) 0 1)
           [xyz 0 0 0; xyz 1 0 10; xyz 2 0 0] [0; 1; 2]%nat).
  - reflexivity.
  - discriminate.
  - discriminate.
Defined.


(** ** The faux reader *)

Section Faux.
Import FauxReader.
Variable random : nat -> nat -> Q -> Q -> Q.

Lemma DimensionId_eqb_eq a b : DimensionId_eqb a b = true <-> a = b.
Proof.
  destruct a, b; simpl; split; try congruence; try reflexivity.
  - intros H. apply Nat.eqb_eq in H. congruence.
  - intros H. injection H as ->. apply Nat.eqb_refl.
Qed.

Lemma getDimensionIndex_lookup schema : forall id i,
  getDimensionIndex schema id = Some i -> schema !! i = Some id.
Proof.
  induction schema as [|d schema IH]; intros id i H; simpl in H; [discriminate|].
  destruct (DimensionId_eqb d id) eqn:E.
  - apply DimensionId_eqb_eq in E. injection H as <-. simpl. congruence.
  - destruct (getDimensionIndex schema id) as [j|] eqn:Ej; [|discriminate].
    injection H as <-. simpl. apply IH. exact Ej.
Qed.

Lemma faux_offsets_distinct schema oX oY oZ oT :
  faux_offsets schema oX oY oZ oT ->
  oX <> oY /\ oX <> oZ /\ oX <> oT /\ oY <> oZ /\ oY <> oT /\ oZ <> oT /\
  (oX < length schema)%nat /\ (oY < length schema)%nat /\
  (oZ < length schema)%nat /\ (oT < length schema)%nat.
Proof.
  intros (HX & HY & HZ & HT).
  apply getDimensionIndex_lookup in HX, HY, HZ, HT.
  repeat split; try (intros ->; congruence); eapply lookup_lt_Some; eassumption.
Qed.

Lemma setField_lookup pointIndex offset v (rows : list (list cell)) i :
  setField pointIndex offset v rows !! i =
  if decide (pointIndex = i) then (fun row => <[offset := v]> row) <$> rows !! i
  else rows !! i.
Proof.
  unfold setField. rewrite list_lookup_alter. destruct (decide (pointIndex = i)); subst; reflexivity.
Qed.

Lemma generate_lookup r index oX oY oZ oT (rows : list (list cell)) i j :
  generate random r index oX oY oZ oT rows i !! j =
  if decide (i = j) then faux_row random r index oX oY oZ oT i <$> rows !! j
  else rows !! j.
Proof.
  unfold generate, faux_row, faux_xyz.
  destruct (m_mode r); cbv beta iota zeta; rewrite !setField_lookup;
    destruct (decide (i = j)); try reflexivity;
    destruct (rows !! j); reflexivity.
Qed.

Lemma generate_fold r index oX oY oZ oT n : forall (rows : list (list cell)) j,
  foldl (generate random r index oX oY oZ oT) rows (seq 0 n) !! j =
  if decide (j < n)%nat then faux_row random r index oX oY oZ oT j <$> rows !! j
  else rows !! j.
Proof.
  induction n as [|n IH]; intros rows j.
  - simpl. destruct (decide (j < 0)%nat); [lia|reflexivity].
  - rewrite seq_S, foldl_app. simpl. rewrite generate_lookup, IH.
    destruct (decide (n = j)) as [->|Hne].
    + destruct (decide (j < j)%nat); [lia|]. destruct (decide (j < S j)%nat); [|lia].
      reflexivity.
    + destruct (decide (j < n)%nat); destruct (decide (j < S n)%nat); try lia; reflexivity.
Qed.

Lemma processBuffer_eval r data index oX oY oZ oT :
  length (pb_schema data) = 4%nat ->
  faux_offsets (pb_schema data) oX oY oZ oT ->
  (0 <= pb_capacity data)%Z ->
  processBuffer random r data index =
  inr (Done (mkPointBuffer (pb_schema data) (pb_capacity data) (faux_count r data index)
               (foldl (generate random r index oX oY oZ oT) (pb_rows data)
                      (seq 0 (Z.to_nat (faux_count r data index)))),
             faux_count r data index)).
Proof.
  intros Hlen (HX & HY & HZ & HT) Hcap. unfold processBuffer.
  rewrite Hlen. simpl negb. cbv iota. rewrite HX, HY, HZ, HT. cbn [of_option].
  rewrite !bind_Done_l.
  assert (E : (if (uint64 (m_numPoints r - index) <? pb_capacity data)%Z
               then uint64 (m_numPoints r - index) else pb_capacity data)
              = faux_count r data index).
  { unfold faux_count. destruct (Z.ltb_spec (uint64 (m_numPoints r - index)) (pb_capacity data)); lia. }
  rewrite E. reflexivity.
Qed.

Lemma write4_lookup oX oY oZ oT x y z t (row : list cell) :
  oX <> oY -> oX <> oZ -> oX <> oT -> oY <> oZ -> oY <> oT -> oZ <> oT ->
  (oX < length row)%nat -> (oY < length row)%nat ->
  (oZ < length row)%nat -> (oT < length row)%nat ->
  let row' := write4 oX oY oZ oT x y z t row in
  row' !! oX = Some x /\ row' !! oY = Some y /\ row' !! oZ = Some z /\
  row' !! oT = Some t /\
  forall o, o <> oX -> o <> oY -> o <> oZ -> o <> oT -> row' !! o = row !! o.
Proof.
  intros Hxy Hxz Hxt Hyz Hyt Hzt HX HY HZ HT row'. unfold row', write4.
  repeat split.
  - rewrite !list_lookup_insert_ne by congruence. apply list_lookup_insert_eq. exact HX.
  - rewrite !list_lookup_insert_ne by congruence. apply list_lookup_insert_eq.
    rewrite length_insert. exact HY.
  - rewrite list_lookup_insert_ne by congruence. apply list_lookup_insert_eq.
    rewrite !length_insert. exact HZ.
  - apply list_lookup_insert_eq. rewrite !length_insert. exact HT.
  - intros o H1 H2 H3 H4. rewrite !list_lookup_insert_ne by congruence. reflexivity.
Qed.

Lemma generate_fold_length r index oX oY oZ oT (ids : list nat) :
  forall rows : list (list cell),
  length (foldl (generate random r index oX oY oZ oT) rows ids) = length rows.
Proof.
  induction ids as [|i ids IH]; intros rows; simpl; [reflexivity|].
  rewrite IH. unfold generate. destruct (faux_xyz random r i) as [[x y] z].
  destruct (m_mode r); cbv beta iota zeta; unfold setField; rewrite !length_alter; reflexivity.
Qed.

(** X22. [processBuffer] throws [not_yet_implemented] for a schema that
    does not have four dimensions. Otherwise it returns and records
    the smaller of the capacity and the unsigned difference
    [numPoints - index], keeps the capacity and the rows beyond that
    count; for an [index] past [numPoints] the difference wraps
    around, and the count is the whole capacity. *)
Theorem faux_processBuffer_count (r : t) (data : PointBuffer) (index : Z)
    (oX oY oZ oT : nat) :
  (length (pb_schema data) <> 4%nat ->
   processBuffer random r data index = inl not_yet_implemented) /\
  (length (pb_schema data) = 4%nat ->
   faux_offsets (pb_schema data) oX oY oZ oT ->
   (0 <= pb_capacity data < 2 ^ 32)%Z ->
   exists data',
     processBuffer random r data index = inr (Done (data', faux_count r data index)) /\
     pb_numPoints data' = faux_count r data index /\
     pb_capacity data' = pb_capacity data /\
     length (pb_rows data') = length (pb_rows data) /\
     (forall j, (faux_count r data index <= Z.of_nat j)%Z ->
        pb_rows data' !! j = pb_rows data !! j)) /\
  ((0 <= m_numPoints r < index)%Z -> (index < 2 ^ 64)%Z ->
   (pb_capacity data <= 2 ^ 64 - (index - m_numPoints r))%Z ->
   faux_count r data index = pb_capacity data).
Proof.
  split; [|split].
  - intros Hne. unfold processBuffer.
    destruct (Nat.eqb_spec (length (pb_schema data)) 4); [congruence|reflexivity].
  - intros Hlen Hoff Hcap. eexists.
    split; [apply processBuffer_eval; [eassumption|eassumption|lia]|].
    simpl. split; [reflexivity|]. split; [reflexivity|].
    split; [apply generate_fold_length|].
    intros j Hj. rewrite generate_fold.
    destruct (decide (j < Z.to_nat (faux_count r data index))%nat); [lia|reflexivity].
  - intros Hn Hi Hcap. unfold faux_count, uint64.
    replace ((m_numPoints r - index) mod 2 ^ 64)%Z
      with (m_numPoints r - index + 2 ^ 64)%Z; [lia|].
    symmetry. rewrite <- (Z.mod_add _ 1) by lia. rewrite Z.mul_1_l.
    apply Z.mod_small. lia.
Qed.




Lemma processBuffer_row (r : t) (data : PointBuffer) (index : Z)
    (oX oY oZ oT : nat) (i : nat) (row : list cell) :
  length (pb_schema data) = 4%nat ->
  faux_offsets (pb_schema data) oX oY oZ oT ->
  (0 <= pb_capacity data < 2 ^ 32)%Z ->
  (Z.of_nat i < faux_count r data index)%Z ->
  pb_rows data !! i = Some row -> length row = 4%nat ->
  exists data' row',
    processBuffer random r data index = inr (Done (data', faux_count r data index)) /\
    pb_rows data' !! i = Some row' /\
    row' !! oX = Some (F64 (faux_xyz random r i).1.1) /\
    row' !! oY = Some (F64 (faux_xyz random r i).1.2) /\
    row' !! oZ = Some (F64 (faux_xyz random r i).2) /\
    row' !! oT = Some (U64 (uint64 (index + Z.of_nat i))).
Proof.
  intros Hlen Hoff Hcap Hi Hrow Hrl.
  eexists. exists (faux_row random r index oX oY oZ oT i row).
  split; [apply processBuffer_eval; [eassumption|eassumption|lia]|]. simpl pb_rows.
  split.
  { rewrite generate_fold. destruct (decide (i < Z.to_nat (faux_count r data index))%nat); [|lia].
    rewrite Hrow. reflexivity. }
  destruct (faux_offsets_distinct _ _ _ _ _ Hoff)
    as (H1 & H2 & H3 & H4 & H5 & H6 & H7 & H8 & H9 & H10).
  rewrite Hlen, <- Hrl in H7, H8, H9, H10.
  unfold faux_row. destruct (faux_xyz random r i) as [[x y] z]. simpl.
  destruct (write4_lookup oX oY oZ oT (F64 x) (F64 y) (F64 z)
              (U64 (uint64 (index + Z.of_nat i))) row H1 H2 H3 H4 H5 H6 H7 H8 H9 H10)
    as (Wx & Wy & Wz & Wt & _).
  repeat split; assumption.
Qed.


(** X24. In Ramp mode with one point the step is a quotient by zero,
    and the coordinates written are not finite numbers. *)
Theorem faux_single_point_ramp (r : t) (data : PointBuffer) (index : Z)
    (oX oY oZ oT : nat) (i : nat) (row : list cell) :
  length (pb_schema data) = 4%nat ->
  faux_offsets (pb_schema data) oX oY oZ oT ->
  (0 <= pb_capacity data < 2 ^ 32)%Z ->
  m_mode r = Ramp -> m_numPoints r = 1%Z ->
  (Z.of_nat i < faux_count r data index)%Z ->
  pb_rows data !! i = Some row -> length row = 4%nat ->
  exists data' row',
    processBuffer random r data index = inr (Done (data', faux_count r data index)) /\
    pb_rows data' !! i = Some row' /\
    row' !! oX = Some (F64 None) /\
    row' !! oY = Some (F64 None) /\
    row' !! oZ = Some (F64 None).
Proof.
  intros Hlen Hoff Hcap Hmode Hn Hi Hrow Hrl.
  destruct (processBuffer_row r data index oX oY oZ oT i row Hlen Hoff Hcap Hi Hrow Hrl)
    as (data' & row' & Hp & Hr & Wx & Wy & Wz & _).
  exists data', row'. split; [exact Hp|]. split; [exact Hr|].
  unfold faux_xyz in Wx, Wy, Wz. rewrite Hmode, Hn in Wx, Wy, Wz.
  repeat split; assumption.
Qed.

(** X25. In Constant mode every point written is at the minimum corner
    of the bounds. *)
Theorem faux_constant_points (r : t) (data : PointBuffer) (index : Z)
    (oX oY oZ oT : nat) (i : nat) (row : list cell) :
  length (pb_schema data) = 4%nat ->
  faux_offsets (pb_schema data) oX oY oZ oT ->
  (0 <= pb_capacity data < 2 ^ 32)%Z ->
  m_mode r = Constant ->
  (Z.of_nat i < faux_count r data index)%Z ->
  pb_rows data !! i = Some row -> length row = 4%nat ->
  exists data' row',
    processBuffer random r data index = inr (Done (data', faux_count r data index)) /\
    pb_rows data' !! i = Some row' /\
    row' !! oX = Some (F64 (Some (minX (m_bounds r)))) /\
    row' !! oY = Some (F64 (Some (minY (m_bounds r)))) /\
    row' !! oZ = Some (F64 (Some (minZ (m_bounds r)))).
Proof.
  intros Hlen Hoff Hcap Hmode Hi Hrow Hrl.
  destruct (processBuffer_row r data index oX oY oZ oT i row Hlen Hoff Hcap Hi Hrow Hrl)
    as (data' & row' & Hp & Hr & Wx & Wy & Wz & _).
  exists data', row'. split; [exact Hp|]. split; [exact Hr|].
  unfold faux_xyz in Wx, Wy, Wz. rewrite Hmode in Wx, Wy, Wz.
  repeat split; assumption.
Qed.

(** X26. In every mode the time written for the point [i] of a buffer
    is [index + i] as an unsigned 64-bit number, so consecutive buffers
    continue the count. *)
Theorem faux_time_stamps (r : t) (data : PointBuffer) (index : Z)
    (oX oY oZ oT : nat) (i : nat) (row : list cell) :
  length (pb_schema data) = 4%nat ->
  faux_offsets (pb_schema data) oX oY oZ oT ->
  (0 <= pb_capacity data < 2 ^ 32)%Z ->
  (Z.of_nat i < faux_count r data index)%Z ->
  pb_rows data !! i = Some row -> length row = 4%nat ->
  exists data' row',
    processBuffer random r data index = inr (Done (data', faux_count r data index)) /\
    pb_rows data' !! i = Some row' /\
    row' !! oT = Some (U64 (uint64 (index + Z.of_nat i))) /\
    ((0 <= index)%Z -> (index + Z.of_nat i < 2 ^ 64)%Z ->
     row' !! oT = Some (U64 (index + Z.of_nat i))).
Proof.
  intros Hlen Hoff Hcap Hi Hrow Hrl.
  destruct (processBuffer_row r data index oX oY oZ oT i row Hlen Hoff Hcap Hi Hrow Hrl)
    as (data' & row' & Hp & Hr & _ & _ & _ & Wt).
  exists data', row'. split; [exact Hp|]. split; [exact Hr|]. split; [exact Wt|].
  intros H0 H1. rewrite Wt. unfold uint64. rewrite Z.mod_small by lia. reflexivity.
Qed.
End Faux.






Lemma faux_single_point_ramp_witness :
  exists data' row',
    FauxReader.processBuffer faux_random (faux_reader 1 FauxReader.Ramp) (faux_buffer 3) 0
      = inr (Done (data', 1%Z)) /\
    FauxReader.pb_rows data' !! 0%nat = Some row' /\
    row' !! 0%nat = Some (FauxReader.F64 None) /\
    row' !! 1%nat = Some (FauxReader.F64 None) /\
    row' !! 2%nat = Some (FauxReader.F64 None).
Proof.
  apply (faux_single_point_ramp faux_random (faux_reader 1 FauxReader.Ramp) (faux_buffer 3) 0
           0 1 2 3 0 (replicate 4 FauxReader.Unset)).
  - reflexivity.
  - repeat split; reflexivity.
  - simpl; lia.
  - reflexivity.
  - reflexivity.
  - vm_compute; reflexivity.
  - reflexivity.
  - reflexivity.
Defined.

Lemma faux_constant_points_witness :
  exists data' row',
    FauxReader.processBuffer faux_random (faux_reader 5 FauxReader.Constant) (faux_buffer 3) 4
      = inr (Done (data', 1%Z)) /\
    FauxReader.pb_rows data' !! 0%nat = Some row' /\
    row' !! 0%nat = Some (FauxReader.F64 (Some 0)) /\
    row' !! 1%nat = Some (FauxReader.F64 (Some 0)) /\
    row' !! 2%nat = Some (FauxReader.F64 (Some 0)).
Proof.
  apply (faux_constant_points faux_random (faux_reader 5 FauxReader.Constant) (faux_buffer 3) 4
           0 1 2 3 0 (replicate 4 FauxReader.Unset)).
  - reflexivity.
  - repeat split; reflexivity.
  - simpl; lia.
  - reflexivity.
  - vm_compute; reflexivity.
  - reflexivity.
  - reflexivity.
Defined.

Lemma faux_time_stamps_witness :
  exists data' row',
    FauxReader.processBuffer faux_random (faux_reader 5 FauxReader.Random) (faux_buffer 3) 2
      = inr (Done (data', 3%Z)) /\
    FauxReader.pb_rows data' !! 1%nat = Some row' /\
    row' !! 3%nat = Some (FauxReader.U64 3).
Proof.
  destruct (faux_time_stamps faux_random (faux_reader 5 FauxReader.Random) (faux_buffer 3) 2
              0 1 2 3 1 (replicate 4 FauxReader.Unset))
    as (data' & row' & Hp & Hr & _ & Ht).
  - reflexivity.
  - repeat split; reflexivity.
  - simpl; lia.
  - vm_compute; reflexivity.
  - reflexivity.
  - reflexivity.
  - exists data', row'. split; [exact Hp|]. split; [exact Hr|].
    apply Ht; simpl; lia.
Defined.
